(** * AI reading companion: a verification development

    The repository is a Next.js front end (React function components and
    hooks written in TypeScript) talking over HTTP to a session-scoped
    back end.  This file embeds the event handlers of the front end as
    Rocq functions over explicit component state, and the session store,
    request gate and orchestrator of the back end (which the front end
    only reaches over HTTP) as small state machines following their
    written contract.

    Conventions.
    - A JavaScript [number] that only ever holds integers is a [Z].
    - [string | null] is [option string]; JavaScript truthiness of such a
      value is [truthy] (the empty string is falsy).
    - An [async] handler with [try]/[catch]/[finally] is a computation in
      the monad [Js W], which threads a world [W] (component state and the
      log of HTTP requests sent) and may end in a thrown value.
    - A handler created by [useCallback] closes over the values of the
      render that created it; a functional update [setX(prev => ...)]
      reads the latest state.  Handlers are run on the state of the render
      that created them, except where the closure is spelled out; for the
      page navigation of [Home], whose guards read the closure and whose
      updates are functional, the render whose callbacks are installed is
      kept apart from the latest state. *)

From Stdlib Require Import ZArith Lia Bool List.
From stdpp Require Import gmap strings list fin_maps pretty.
Import ListNotations.

Local Open Scope string_scope.
Local Open Scope Z_scope.

(** ** JavaScript values shared by the components *)

(** What a [catch (err)] clause can receive: an [Error] instance with its
    message, or any other thrown value. *)
Inductive Thrown : Type :=
| ErrorObj (message : string)
| NotAnError.

(** [err instanceof Error ? err.message : fallback] *)
Definition message_or (err : Thrown) (fallback : string) : string :=
  match err with
  | ErrorObj m => m
  | NotAnError => fallback
  end.

(** Truthiness of a [string | null | undefined]. *)
Definition truthy (s : option string) : bool :=
  match s with
  | Some EmptyString => false
  | Some _ => true
  | None => false
  end.

(** [a || b] on such a value with a string fallback. *)
Definition js_or (a : option string) (b : string) : string :=
  match a with
  | Some s => if truthy a then s else b
  | None => b
  end.

(** ** The [Js] monad: state passing with exceptions *)

Inductive Res (A : Type) : Type :=
| Normal (a : A)
| Throw (e : Thrown).
Arguments Normal {A} a.
Arguments Throw {A} e.

Definition Js (W A : Type) : Type := W -> Res A * W.

Section JsMonad.
Context {W : Type}.

Definition ret {A} (a : A) : Js W A := fun w => (Normal a, w).

Definition bind {A B} (m : Js W A) (k : A -> Js W B) : Js W B :=
  fun w => match m w with
           | (Normal a, w') => k a w'
           | (Throw e, w') => (Throw e, w')
           end.

Definition throw {A} (e : Thrown) : Js W A := fun w => (Throw e, w).

Definition get_world : Js W W := fun w => (Normal w, w).

Definition modify (f : W -> W) : Js W unit := fun w => (Normal tt, f w).

(** [try { body } catch (err) { handler err }] *)
Definition try_catch {A} (body : Js W A) (handler : Thrown -> Js W A) : Js W A :=
  fun w => match body w with
           | (Normal a, w') => (Normal a, w')
           | (Throw e, w') => handler e w'
           end.

(** [try { body } finally { cleanup }]: the cleanup always runs; when it
    completes normally the outcome of the body stands. *)
Definition finally {A} (body : Js W A) (cleanup : Js W unit) : Js W A :=
  fun w => match body w with
           | (r, w') => match cleanup w' with
                        | (Normal _, w'') => (r, w'')
                        | (Throw e, w'') => (Throw e, w'')
                        end
           end.

(** [if (c) { m }] *)
Definition when (c : bool) (m : Js W unit) : Js W unit :=
  if c then m else ret tt.
End JsMonad.

Declare Scope js_scope.
Delimit Scope js_scope with js.
Notation "x <- m ;; k" := (bind m (fun x => k))
  (at level 100, m at next level, right associativity) : js_scope.
Notation "m ;; k" := (bind m (fun _ => k))
  (at level 100, right associativity) : js_scope.

(** ** hooks/useReaderPreferences *)

Module ReaderPreferences.

Definition MIN_FONT_SIZE : Z := 14.
Definition MAX_FONT_SIZE : Z := 28.
Definition FONT_SIZE_STEP : Z := 2.
Definition DEFAULT_FONT_SIZE : Z := 18.

(** [setFontSize(prev => Math.min(MAX_FONT_SIZE, prev + FONT_SIZE_STEP))] *)
Definition increaseFontSize (prev : Z) : Z :=
  Z.min MAX_FONT_SIZE (prev + FONT_SIZE_STEP).

(** [setFontSize(prev => Math.max(MIN_FONT_SIZE, prev - FONT_SIZE_STEP))] *)
Definition decreaseFontSize (prev : Z) : Z :=
  Z.max MIN_FONT_SIZE (prev - FONT_SIZE_STEP).

Definition canIncrease (fontSize : Z) : bool := fontSize <? MAX_FONT_SIZE.
Definition canDecrease (fontSize : Z) : bool := fontSize >? MIN_FONT_SIZE.

(** The mount effect: a stored [fontSize] is adopted only when it is
    truthy and within the bounds. *)
Definition loadFontSize (stored : option Z) (current : Z) : Z :=
  match stored with
  | Some f =>
      if negb (f =? 0) && (f >=? MIN_FONT_SIZE) && (f <=? MAX_FONT_SIZE)
      then f else current
  | None => current
  end.

Inductive action : Type := Increase | Decrease.

Definition step (fontSize : Z) (a : action) : Z :=
  match a with
  | Increase => increaseFontSize fontSize
  | Decrease => decreaseFontSize fontSize
  end.

Definition run (fontSize : Z) (acts : list action) : Z :=
  fold_left step acts fontSize.

Definition in_range (fontSize : Z) : Prop :=
  MIN_FONT_SIZE <= fontSize <= MAX_FONT_SIZE.

End ReaderPreferences.

(** ** app/page.tsx and components/ReaderView: page navigation *)

Module Navigation.

(** The state the navigation handlers see: the current page and the
    number of pages of the session. *)
Record nav := { currentPage : Z; pagesLength : Z }.

(** [goToNextPage] of [Home]: the guard reads the [currentPage] and
    [pages.length] captured by the callback, the update is functional. *)
Definition goToNextPage (captured : nav) (prev : Z) : Z :=
  if currentPage captured <? pagesLength captured then prev + 1 else prev.

(** [goToPrevPage] of [Home]. *)
Definition goToPrevPage (captured : nav) (prev : Z) : Z :=
  if currentPage captured >? 1 then prev - 1 else prev.

(** [goToNext] of [ReaderView]: [onPageChange(currentPage + 1)] with the
    props of the current render; [onPageChange] is [setCurrentPage]. *)
Definition goToNext (props : nav) (prev : Z) : Z :=
  if currentPage props <? pagesLength props then currentPage props + 1 else prev.

(** [goToPrevious] of [ReaderView]. *)
Definition goToPrevious (props : nav) (prev : Z) : Z :=
  if currentPage props >? 1 then currentPage props - 1 else prev.

Inductive action : Type :=
| KeyNext        (* ArrowDown, through useKeyboardShortcuts *)
| KeyPrev        (* ArrowUp *)
| ClickNext      (* the next button of ReaderView *)
| ClickPrevious. (* the previous button of ReaderView *)

(** One navigation event reaching the callbacks of the render that
    captured [captured], while the state React holds is [s]: the guard
    reads [captured], [setCurrentPage] acts on [s]. *)
Definition handle (captured s : nav) (a : action) : nav :=
  let page :=
    match a with
    | KeyNext => goToNextPage captured (currentPage s)
    | KeyPrev => goToPrevPage captured (currentPage s)
    | ClickNext => goToNext captured (currentPage s)
    | ClickPrevious => goToPrevious captured (currentPage s)
    end in
  {| currentPage := page; pagesLength := pagesLength s |}.

(** [Home] on the page: the state React holds, and the state captured by
    the render whose callbacks are installed (the [onClick] props of the
    buttons, the keydown listener).  A state update does not change the
    callbacks until the component has rendered again. *)
Record mounted := { latest : nav; rendered : nav }.

Definition display (s : nav) : mounted := {| latest := s; rendered := s |}.

Inductive event : Type :=
| Do (a : action)   (* an event reaches the installed callbacks *)
| Render.           (* React renders the latest state *)

Definition step (m : mounted) (e : event) : mounted :=
  match e with
  | Do a => {| latest := handle (rendered m) (latest m) a;
               rendered := rendered m |}
  | Render => display (latest m)
  end.

Definition run (m : mounted) (es : list event) : mounted := fold_left step es m.

(** Navigation steps between which the component has rendered again, as
    it has between two clicks or key presses of a user. *)
Definition apart (acts : list action) : list event :=
  flat_map (fun a => [Do a; Render]) acts.

(** The events that go through the buttons of [ReaderView] only. *)
Definition click (e : event) : Prop := e <> Do KeyNext /\ e <> Do KeyPrev.

Definition valid (s : nav) : Prop := 1 <= currentPage s <= pagesLength s.

End Navigation.

(** ** lib/api: the HTTP client *)

Module Api.

Record File := { file_name : string; file_type : string; file_size : Z }.

Record PageText := { page_number : Z; text : string }.

Record UploadResponse :=
  { session_id : string; page_count : Z; message : string }.

Record PagesResponse := { pages_session_id : string; pages : list PageText }.

Inductive Language : Type := english | telugu.

Record Character :=
  { name : string; role : string; relationships : list string;
    first_appearance_page : Z }.

Record CharactersResponse :=
  { characters : list Character; language : Language }.

Record Blob := { blob_type : string; blob_data : string }.

(** The requests the client sends, one constructor per endpoint used by
    the handlers below. *)
Inductive Request : Type :=
| UploadImages (files : list File)                       (* POST /upload-images *)
| GetPages (sessionId : string)                          (* GET /pages/:id *)
| GetCharacters (sessionId : string) (lang : Language)   (* POST /characters *)
| GetTTSAudio (sessionId : string) (pageNumber : Z)      (* POST /tts/english *)
| DeleteSession (sessionId : string).                    (* DELETE /session/:id *)

(** Reading a body ([response.json()], [response.blob()]) either yields
    the value or rejects. *)
Inductive Body (B : Type) : Type :=
| Read (b : B)
| Unreadable (e : Thrown).
Arguments Read {B} b.
Arguments Unreadable {B} e.

(** What [await fetch(...)] can lead to: the promise rejects (no HTTP
    response), a response with [ok] false whose JSON body may carry a
    [detail], or a response with [ok] true. *)
Inductive Reply (B : Type) : Type :=
| Rejected (e : Thrown)
| NotOk (error : Body (option string))
| Ok (body : Body B).
Arguments Rejected {B} e.
Arguments NotOk {B} error.
Arguments Ok {B} body.

(** The server as the client sees it: for each endpoint, the reply as a
    function of the requests sent so far and of the arguments. *)
Record Server :=
  { upload_images : list Request -> list File -> Reply UploadResponse;
    get_pages : list Request -> string -> Reply PagesResponse;
    get_characters : list Request -> string -> Language -> Reply CharactersResponse;
    tts_english : list Request -> string -> Z -> Reply Blob;
    delete_session : list Request -> string -> Reply unit }.

(** The world of a component: its React state and refs, the requests sent
    so far, and the object URLs of the page ([URL.createObjectURL] hands
    out [blob:] URLs, [URL.revokeObjectURL] retires them). *)
Record World (St : Type) :=
  { state : St; sent : list Request; live_urls : list string; urls_made : nat }.
Arguments state {St} w.
Arguments sent {St} w.
Arguments live_urls {St} w.
Arguments urls_made {St} w.

Definition set_state {St} (f : St -> St) : Js (World St) unit :=
  modify (fun w => {| state := f (state w); sent := sent w;
                      live_urls := live_urls w; urls_made := urls_made w |}).

Definition get_state {St} : Js (World St) St :=
  fun w => (Normal (state w), w).

Definition createObjectURL {St B} (object : B) : Js (World St) string :=
  fun w => let url := "blob:" +:+ pretty (urls_made w) in
           (Normal url,
            {| state := state w; sent := sent w;
               live_urls := live_urls w ++ [url];
               urls_made := S (urls_made w) |}).

Definition revokeObjectURL {St} (url : string) : Js (World St) unit :=
  modify (fun w => {| state := state w; sent := sent w;
                      live_urls := filter (fun u => u ≠ url) (live_urls w);
                      urls_made := urls_made w |}).

(** The common shape of the API functions:
    [const response = await fetch(...);
     if (!response.ok) { const error = await response.json();
                         throw new Error(error.detail || fallback); }
     return response.json();] *)
Definition call {St B} (reply : list Request -> Reply B) (req : Request)
    (fallback : string) : Js (World St) B :=
  fun w =>
    let w' := {| state := state w; sent := sent w ++ [req];
                 live_urls := live_urls w; urls_made := urls_made w |} in
    match reply (sent w) with
    | Rejected e => (Throw e, w')
    | NotOk (Unreadable e) => (Throw e, w')
    | NotOk (Read detail) => (Throw (ErrorObj (js_or detail fallback)), w')
    | Ok (Unreadable e) => (Throw e, w')
    | Ok (Read b) => (Normal b, w')
    end.

Section Client.
Context {St : Type} (srv : Server).

Definition uploadImages (files : list File) : Js (World St) UploadResponse :=
  call (fun h => upload_images srv h files) (UploadImages files) "Upload failed".

Definition getPages (sessionId : string) : Js (World St) PagesResponse :=
  call (fun h => get_pages srv h sessionId) (GetPages sessionId)
       "Failed to get pages".

Definition getCharacters (sessionId : string) (lang : Language)
  : Js (World St) CharactersResponse :=
  call (fun h => get_characters srv h sessionId lang)
       (GetCharacters sessionId lang) "Character extraction failed".

Definition getTTSAudio (sessionId : string) (pageNumber : Z) : Js (World St) Blob :=
  call (fun h => tts_english srv h sessionId pageNumber)
       (GetTTSAudio sessionId pageNumber) "TTS generation failed".

(** [deleteSession] returns without reading the body of an [ok] response. *)
Definition deleteSession (sessionId : string) : Js (World St) unit :=
  fun w =>
    let w' := {| state := state w; sent := sent w ++ [DeleteSession sessionId];
                 live_urls := live_urls w; urls_made := urls_made w |} in
    match delete_session srv (sent w) sessionId with
    | Rejected e => (Throw e, w')
    | NotOk (Unreadable e) => (Throw e, w')
    | NotOk (Read detail) =>
        (Throw (ErrorObj (js_or detail "Failed to delete session")), w')
    | Ok _ => (Normal tt, w')
    end.

End Client.

End Api.

(** ** hooks/useSession *)

Module UseSession.
Import Api.
Local Open Scope js_scope.

Record SessionState :=
  { sessionId : option string;
    pages : list PageText;
    isLoading : bool;
    error : option string }.

Definition initial : SessionState :=
  {| sessionId := None; pages := []; isLoading := false; error := None |}.

Definition setSessionId (v : option string) : Js (World SessionState) unit :=
  set_state (fun s => {| sessionId := v; pages := pages s;
                         isLoading := isLoading s; error := error s |}).

Definition setPages (v : list PageText) : Js (World SessionState) unit :=
  set_state (fun s => {| sessionId := sessionId s; pages := v;
                         isLoading := isLoading s; error := error s |}).

Definition setIsLoading (v : bool) : Js (World SessionState) unit :=
  set_state (fun s => {| sessionId := sessionId s; pages := pages s;
                         isLoading := v; error := error s |}).

Definition setError (v : option string) : Js (World SessionState) unit :=
  set_state (fun s => {| sessionId := sessionId s; pages := pages s;
                         isLoading := isLoading s; error := v |}).

Section Hook.
Context (srv : Server).

(** [upload]: upload the images, remember the session id, then fetch the
    extracted pages. *)
Definition upload (files : list File) : Js (World SessionState) UploadResponse :=
  setIsLoading true ;;
  setError None ;;
  finally
    (try_catch
       (response <- uploadImages srv files ;;
        setSessionId (Some (session_id response)) ;;
        pagesResponse <- getPages srv (session_id response) ;;
        setPages (Api.pages pagesResponse) ;;
        ret response)
       (fun err =>
          setError (Some (message_or err "Upload failed")) ;;
          throw err))
    (setIsLoading false).

(** [clearSession]: the [sessionId] tested and sent is the one captured by
    the callback, i.e. that of the state the handler is run on. *)
Definition clearSession : Js (World SessionState) unit :=
  s <- get_state ;;
  when (truthy (sessionId s))
       (match sessionId s with
        | Some id => try_catch (deleteSession srv id) (fun _ => ret tt)
        | None => ret tt
        end) ;;
  setSessionId None ;;
  setPages [] ;;
  setError None.

End Hook.

(** What [Home] renders for a session state: the uploader (with the
    hook's error message) when there is no session id, the reader when
    there is one and at least one page, and otherwise neither. *)
Inductive Screen : Type := UploadScreen | ReaderScreen | NeitherScreen.

Definition screen (s : SessionState) : Screen :=
  if negb (truthy (sessionId s)) then UploadScreen
  else if (0 <? Z.of_nat (length (pages s))) then ReaderScreen
  else NeitherScreen.

End UseSession.

(** ** components/CharacterTable *)

Module CharacterTable.
Import Api.
Local Open Scope js_scope.

(** The state the extraction handler touches; [isExpanded] and
    [searchQuery] only drive the display. *)
Record TableState :=
  { characters : list Character;
    language : Language;
    isLoading : bool;
    error : option string;
    hasLoaded : bool }.

Definition setCharacters (v : list Character) : Js (World TableState) unit :=
  set_state (fun s => {| characters := v; language := language s;
                         isLoading := isLoading s; error := error s;
                         hasLoaded := hasLoaded s |}).

Definition setLanguage (v : Language) : Js (World TableState) unit :=
  set_state (fun s => {| characters := characters s; language := v;
                         isLoading := isLoading s; error := error s;
                         hasLoaded := hasLoaded s |}).

Definition setIsLoading (v : bool) : Js (World TableState) unit :=
  set_state (fun s => {| characters := characters s; language := language s;
                         isLoading := v; error := error s;
                         hasLoaded := hasLoaded s |}).

Definition setError (v : option string) : Js (World TableState) unit :=
  set_state (fun s => {| characters := characters s; language := language s;
                         isLoading := isLoading s; error := v;
                         hasLoaded := hasLoaded s |}).

Definition setHasLoaded (v : bool) : Js (World TableState) unit :=
  set_state (fun s => {| characters := characters s; language := language s;
                         isLoading := isLoading s; error := error s;
                         hasLoaded := v |}).

Section Component.
Context (srv : Server) (sessionId : string).

Definition handleExtractCharacters (lang : Language) : Js (World TableState) unit :=
  setIsLoading true ;;
  setError None ;;
  setLanguage lang ;;
  finally
    (try_catch
       (result <- getCharacters srv sessionId lang ;;
        setCharacters (Api.characters result) ;;
        setHasLoaded true)
       (fun err =>
          setError (Some (message_or err "Character extraction failed"))))
    (setIsLoading false).

(** The re-extract button (and the "Try again" button):
    [onClick={() => handleExtractCharacters(language)}]. *)
Definition reExtract : Js (World TableState) unit :=
  s <- get_state ;;
  handleExtractCharacters (language s).

End Component.

End CharacterTable.

(** ** components/AudioPlayer *)

Module AudioPlayer.
Import Api.
Local Open Scope js_scope.

(** The [<audio>] node reachable through [audioRef]. *)
Record AudioElement := { paused : bool }.

(** React state ([isLoading] ... [progress]) and the two refs.  [progress]
    is the playback position; [loadAudio] only ever resets it to 0.  The
    [duration] state is left out: no handler modelled here reads or writes
    it. *)
Record PlayerState :=
  { isLoading : bool;
    isPlaying : bool;
    audioUrl : option string;
    error : option string;
    progress : Z;
    audioRef : option AudioElement;
    loadedPageRef : option Z }.

Definition initial : PlayerState :=
  {| isLoading := false; isPlaying := false; audioUrl := None; error := None;
     progress := 0; audioRef := None; loadedPageRef := None |}.

Definition setIsLoading (v : bool) : Js (World PlayerState) unit :=
  set_state (fun s => {| isLoading := v; isPlaying := isPlaying s;
                         audioUrl := audioUrl s; error := error s;
                         progress := progress s; audioRef := audioRef s;
                         loadedPageRef := loadedPageRef s |}).

Definition setIsPlaying (v : bool) : Js (World PlayerState) unit :=
  set_state (fun s => {| isLoading := isLoading s; isPlaying := v;
                         audioUrl := audioUrl s; error := error s;
                         progress := progress s; audioRef := audioRef s;
                         loadedPageRef := loadedPageRef s |}).

Definition setAudioUrl (v : option string) : Js (World PlayerState) unit :=
  set_state (fun s => {| isLoading := isLoading s; isPlaying := isPlaying s;
                         audioUrl := v; error := error s;
                         progress := progress s; audioRef := audioRef s;
                         loadedPageRef := loadedPageRef s |}).

Definition setError (v : option string) : Js (World PlayerState) unit :=
  set_state (fun s => {| isLoading := isLoading s; isPlaying := isPlaying s;
                         audioUrl := audioUrl s; error := v;
                         progress := progress s; audioRef := audioRef s;
                         loadedPageRef := loadedPageRef s |}).

Definition setProgress (v : Z) : Js (World PlayerState) unit :=
  set_state (fun s => {| isLoading := isLoading s; isPlaying := isPlaying s;
                         audioUrl := audioUrl s; error := error s;
                         progress := v; audioRef := audioRef s;
                         loadedPageRef := loadedPageRef s |}).

(** [audioRef.current.pause()] *)
Definition pauseAudio : Js (World PlayerState) unit :=
  set_state (fun s => {| isLoading := isLoading s; isPlaying := isPlaying s;
                         audioUrl := audioUrl s; error := error s;
                         progress := progress s;
                         audioRef := match audioRef s with
                                     | Some _ => Some {| paused := true |}
                                     | None => None
                                     end;
                         loadedPageRef := loadedPageRef s |}).

(** [loadedPageRef.current = v] *)
Definition setLoadedPage (v : option Z) : Js (World PlayerState) unit :=
  set_state (fun s => {| isLoading := isLoading s; isPlaying := isPlaying s;
                         audioUrl := audioUrl s; error := error s;
                         progress := progress s; audioRef := audioRef s;
                         loadedPageRef := v |}).

Section Component.
Context (srv : Server) (sessionId : string) (currentPage : Z).

(** [loadAudio]: generate audio for the current page, unless it is the
    page whose audio is already loaded. *)
Definition loadAudio : Js (World PlayerState) unit :=
  s <- get_state ;;
  if bool_decide (loadedPageRef s = Some currentPage) && truthy (audioUrl s)
  then ret tt
  else
    setIsLoading true ;;
    setError None ;;
    when (truthy (audioUrl s))
         (match audioUrl s with
          | Some url => revokeObjectURL url
          | None => ret tt
          end) ;;
    when (bool_decide (is_Some (audioRef s))) pauseAudio ;;
    setIsPlaying false ;;
    setProgress 0 ;;
    finally
      (try_catch
         (blob <- getTTSAudio srv sessionId currentPage ;;
          url <- createObjectURL blob ;;
          setAudioUrl (Some url) ;;
          setLoadedPage (Some currentPage))
         (fun err =>
            setError (Some (message_or err "Failed to generate audio"))))
      (setIsLoading false).

End Component.

End AudioPlayer.

(** ** components/ImageUploader *)

Module ImageUploader.
Import Api.
Local Open Scope js_scope.

Record UploaderState :=
  { selectedFiles : list File;
    previews : list string;
    isUploading : bool;
    error : option string;
    showCamera : bool }.

Definition initial : UploaderState :=
  {| selectedFiles := []; previews := []; isUploading := false;
     error := None; showCamera := false |}.

Definition allowedTypes : list string :=
  ["image/jpeg"; "image/png"; "image/webp"; "image/gif"].

Definition MAX_FILE_SIZE : Z := 10 * 1024 * 1024.

(** [setSelectedFiles(prev => f prev)] *)
Definition setSelectedFiles (f : list File -> list File)
  : Js (World UploaderState) unit :=
  set_state (fun s => {| selectedFiles := f (selectedFiles s);
                         previews := previews s; isUploading := isUploading s;
                         error := error s; showCamera := showCamera s |}).

Definition setPreviews (f : list string -> list string)
  : Js (World UploaderState) unit :=
  set_state (fun s => {| selectedFiles := selectedFiles s;
                         previews := f (previews s); isUploading := isUploading s;
                         error := error s; showCamera := showCamera s |}).

Definition setIsUploading (v : bool) : Js (World UploaderState) unit :=
  set_state (fun s => {| selectedFiles := selectedFiles s;
                         previews := previews s; isUploading := v;
                         error := error s; showCamera := showCamera s |}).

Definition setError (v : option string) : Js (World UploaderState) unit :=
  set_state (fun s => {| selectedFiles := selectedFiles s;
                         previews := previews s; isUploading := isUploading s;
                         error := v; showCamera := showCamera s |}).

Definition setShowCamera (v : bool) : Js (World UploaderState) unit :=
  set_state (fun s => {| selectedFiles := selectedFiles s;
                         previews := previews s; isUploading := isUploading s;
                         error := error s; showCamera := v |}).

(** [l.filter((_, i) => i !== index)] *)
Definition without_index {A} (index : nat) (l : list A) : list A :=
  (filter (fun ix => ix.1 ≠ index) (imap (fun i x => (i, x)) l)).*2.

(** [urls.forEach(url => URL.revokeObjectURL(url))] *)
Fixpoint revokeAll (urls : list string) : Js (World UploaderState) unit :=
  match urls with
  | [] => ret tt
  | url :: rest => revokeObjectURL url ;; revokeAll rest
  end.

Section Component.
Context (onUpload : list File -> Js (World UploaderState) unit) (maxFiles : Z).

(** [handleFileSelect(files: FileList | null)] *)
Definition handleFileSelect (files : option (list File))
  : Js (World UploaderState) unit :=
  match files with
  | None | Some [] => ret tt
  | Some (file :: _) =>
      s <- get_state ;;
      setError None ;;
      if negb (bool_decide (file_type file ∈ allowedTypes)) then
        setError (Some (file_name file +:+
                        " is not a valid image type. Use JPG, PNG, WebP, or GIF."))
      else if file_size file >? MAX_FILE_SIZE then
        setError (Some (file_name file +:+ " is too large. Maximum size is 10MB."))
      else if Z.of_nat (length (selectedFiles s)) >=? maxFiles then
        setError (Some ("Maximum " +:+ pretty maxFiles +:+ " images allowed."))
      else
        preview <- createObjectURL file ;;
        setSelectedFiles (fun prev => (prev ++ [file])%list) ;;
        setPreviews (fun prev => (prev ++ [preview])%list)
  end.

(** [removeFile] and [clearAll] are plain functions of the render: the
    [previews] they revoke are those of the render that created them. *)
Definition removeFile (captured : UploaderState) (index : nat)
  : Js (World UploaderState) unit :=
  match previews captured !! index with
  | Some url => revokeObjectURL url
  | None => ret tt
  end ;;
  setSelectedFiles (without_index index) ;;
  setPreviews (without_index index).

Definition clearAll (captured : UploaderState) : Js (World UploaderState) unit :=
  revokeAll (previews captured) ;;
  setSelectedFiles (fun _ => []) ;;
  setPreviews (fun _ => []) ;;
  setError None.

Definition handleUpload : Js (World UploaderState) unit :=
  s <- get_state ;;
  if Z.of_nat (length (selectedFiles s)) =? 0 then ret tt
  else
    setIsUploading true ;;
    setError None ;;
    finally
      (try_catch
         (onUpload (selectedFiles s) ;;
          clearAll s)
         (fun err => setError (Some (message_or err "Upload failed"))))
      (setIsUploading false).

Definition openCamera : Js (World UploaderState) unit :=
  s <- get_state ;;
  if Z.of_nat (length (selectedFiles s)) >=? maxFiles then
    setError (Some ("Maximum " +:+ pretty maxFiles +:+ " images allowed."))
  else setShowCamera true.

Definition handleCameraCapture (file : File) : Js (World UploaderState) unit :=
  preview <- createObjectURL file ;;
  setSelectedFiles (fun prev => (prev ++ [file])%list) ;;
  setPreviews (fun prev => (prev ++ [preview])%list) ;;
  setShowCamera false.

(** The events that edit the selection through the file input and the
    preview grid. *)
Inductive selection_event : Type :=
| FileSelect (files : option (list File))
| RemoveFile (index : nat)
| ClearAll.

Definition handle (ev : selection_event) : Js (World UploaderState) unit :=
  match ev with
  | FileSelect files => handleFileSelect files
  | RemoveFile index => s <- get_state ;; removeFile s index
  | ClearAll => s <- get_state ;; clearAll s
  end.

Definition run (w : World UploaderState) (evs : list selection_event)
  : World UploaderState :=
  fold_left (fun w ev => (handle ev w).2) evs w.

End Component.

(** A file that passes the checks of [handleFileSelect]. *)
Definition acceptable (file : File) : Prop :=
  file_type file ∈ allowedTypes ∧ file_size file <= MAX_FILE_SIZE.

(** The three refusals of [handleFileSelect]. *)
Definition refused (maxFiles : Z) (file : File) (w : World UploaderState) : Prop :=
  file_type file ∉ allowedTypes
  ∨ file_size file > MAX_FILE_SIZE
  ∨ Z.of_nat (length (selectedFiles (state w))) >= maxFiles.

(** What holds of every selection built through the file input. *)
Definition well_formed (maxFiles : Z) (w : World UploaderState) : Prop :=
  Forall acceptable (selectedFiles (state w))
  ∧ Z.of_nat (length (selectedFiles (state w))) <= maxFiles.

(** The uploader as first rendered, and an [onUpload] that does nothing. *)
Definition empty_world : World UploaderState :=
  {| state := initial; sent := []; live_urls := []; urls_made := 0 |}.

Definition silent_onUpload (files : list File) : Js (World UploaderState) unit :=
  ret tt.

(** The reading of "the upload is rejected with a validation error" on the
    component: the handler leaves an error message and the selection as it
    was. *)
Definition rejected_with_error (before after : World UploaderState) : Prop :=
  is_Some (error (state after))
  ∧ selectedFiles (state after) = selectedFiles (state before).

End ImageUploader.

(** ** The back end: SessionStore and ExpiryReaper

    The front end reaches the session store only over HTTP; the store
    itself is not among the sources.  It is modelled here from its written
    contract. *)

Module SessionStore.

(** Modelled from the spec: the TTL of a session, one hour, in seconds. *)
Definition TTL : Z := 3600.

(** Modelled from the spec: the data model of the store (section 3), in
    place of the session service of the back end: a page record, a cache
    key [(pageNumber?, stageName, variant)], a session, and the session
    map with its supply of fresh ids. *)
Record PageRecord := { pageNumber : Z; rawText : string }.

Abbreviation CacheKey := (option Z * string * string)%type.

Record Session :=
  { id : nat;
    createdAt : Z;
    expiresAt : Z;
    pages : list PageRecord;
    stageCache : gmap CacheKey string }.

Record Store := { sessions : gmap nat Session; next_id : nat }.

Definition empty : Store := {| sessions := ∅; next_id := 0%nat |}.

Inductive Lookup (A : Type) : Type :=
| Found (a : A)
| NotFound.
Arguments Found {A} a.
Arguments NotFound {A}.

Inductive CacheLookup : Type :=
| Hit (value : string)
| Missing
| SessionNotFound.

(** Modelled from the spec: [create(pages)] allocates a fresh id and
    stores the session with [expiresAt = now + TTL]. *)
Definition create (now : Z) (pages : list PageRecord) (st : Store) : nat * Store :=
  let fresh := next_id st in
  (fresh,
   {| sessions := <[fresh := {| id := fresh; createdAt := now;
                                expiresAt := now + TTL;
                                pages := pages; stageCache := ∅ |}]> (sessions st);
      next_id := S fresh |}).

(** Modelled from the spec: [get(id)] is NotFound if the session is absent
    or expired, whether or not the entry has been reaped; the expiry check
    happens on every read. *)
Definition get (now : Z) (id : nat) (st : Store) : Lookup Session :=
  match sessions st !! id with
  | Some s => if now <? expiresAt s then Found s else NotFound
  | None => NotFound
  end.

(** Modelled from the spec: [putCache(id, key, value)] is NotFound ([None])
    if the session is gone when the write lands. *)
Definition putCache (now : Z) (id : nat) (key : CacheKey) (value : string)
    (st : Store) : option Store :=
  match get now id st with
  | Found s =>
      Some {| sessions :=
                <[id := {| SessionStore.id := SessionStore.id s;
                           createdAt := createdAt s; expiresAt := expiresAt s;
                           pages := pages s;
                           stageCache := <[key := value]> (stageCache s) |}]>
                  (sessions st);
              next_id := next_id st |}
  | NotFound => None
  end.

(** Modelled from the spec: [getCache(id, key)]. *)
Definition getCache (now : Z) (id : nat) (key : CacheKey) (st : Store)
  : CacheLookup :=
  match get now id st with
  | Found s => match stageCache s !! key with
               | Some v => Hit v
               | None => Missing
               end
  | NotFound => SessionNotFound
  end.

(** Modelled from the spec: [delete(id)], idempotent. *)
Definition delete (id : nat) (st : Store) : Store :=
  {| sessions := base.delete id (sessions st); next_id := next_id st |}.

(** Modelled from the spec: one tick of the ExpiryReaper enumerates the
    sessions whose [expiresAt <= now] and deletes each through [delete]. *)
Definition expired (now : Z) (st : Store) : list nat :=
  (filter (fun e => expiresAt e.2 <= now) (map_to_list (sessions st))).*1.

Definition reap (now : Z) (st : Store) : Store :=
  foldr delete st (expired now st).

(** The operations that change the store, and a history of them, each
    with the time at which it runs. *)
Inductive op : Type :=
| Create (pages : list PageRecord)
| PutCache (id : nat) (key : CacheKey) (value : string)
| Delete (id : nat)
| ReaperTick.

Definition apply (st : Store) (e : Z * op) : Store :=
  match e.2 with
  | Create pages => (create e.1 pages st).2
  | PutCache id key value =>
      match putCache e.1 id key value st with
      | Some st' => st'
      | None => st
      end
  | Delete id => delete id st
  | ReaperTick => reap e.1 st
  end.

Definition run (st : Store) (history : list (Z * op)) : Store :=
  fold_left apply history st.

(** What a history preserves about the session created under [id] at
    time [t0]: its id is never handed out again, its timestamps and pages
    never change, and it is still stored for as long as it has not
    expired at [now]. *)
Definition tracked (id : nat) (t0 : Z) (pgs : list PageRecord) (now : Z)
    (st : Store) : Prop :=
  (id < next_id st)%nat
  ∧ (forall s, sessions st !! id = Some s ->
               createdAt s = t0 ∧ expiresAt s = t0 + TTL ∧ pages s = pgs)
  ∧ (now < t0 + TTL -> is_Some (sessions st !! id)).

End SessionStore.

(** ** The back end: RequestGate

    Modelled from its written contract as a machine over two kinds of
    events: a caller issuing [run(key, computeFn)], and the in-flight
    invocation for a key completing with a value or an error.  Concurrent
    callers are callers whose [run] arrives while the invocation is in
    flight. *)

Module RequestGate.

Section Gate.
Context {Key Caller Value Error : Type} `{Countable Key}.

Inductive Outcome : Type :=
| Success (v : Value)
| Failure (e : Error).

(** Modelled from the spec: the state of the gate, in place of the
    in-flight bookkeeping of the back end.  [inflight]: the registration,
    each key in flight with the callers attached to it; [invoked]: the
    adapter invocations started so far; [delivered]: what each caller has
    received. *)
Record Gate :=
  { inflight : gmap Key (list Caller);
    invoked : list Key;
    delivered : list (Caller * Key * Outcome) }.

Definition idle : Gate := {| inflight := ∅; invoked := []; delivered := [] |}.

(** Modelled from the spec: [run(key, computeFn)].  With no invocation in
    flight for [key] it starts one and registers it; otherwise the caller
    attaches to the one in flight. *)
Definition run (c : Caller) (k : Key) (g : Gate) : Gate :=
  match inflight g !! k with
  | None =>
      {| inflight := <[k := [c]]> (inflight g);
         invoked := invoked g ++ [k];
         delivered := delivered g |}
  | Some waiters =>
      {| inflight := <[k := (waiters ++ [c])%list]> (inflight g);
         invoked := invoked g;
         delivered := delivered g |}
  end.

(** Modelled from the spec: when the invocation completes, every attached
    caller observes its outcome and the registration is cleared, on
    success and on failure alike. *)
Definition complete (k : Key) (o : Outcome) (g : Gate) : Gate :=
  match inflight g !! k with
  | Some waiters =>
      {| inflight := base.delete k (inflight g);
         invoked := invoked g;
         delivered := delivered g ++ map (fun c => (c, k, o)) waiters |}
  | None => g
  end.

Inductive event : Type :=
| Call (c : Caller) (k : Key)
| Complete (k : Key) (o : Outcome).

Definition key_of (e : event) : Key :=
  match e with
  | Call _ k => k
  | Complete k _ => k
  end.

Definition step (g : Gate) (e : event) : Gate :=
  match e with
  | Call c k => run c k g
  | Complete k o => complete k o g
  end.

Definition exec (g : Gate) (trace : list event) : Gate := fold_left step trace g.

(** Number of adapter invocations started for [k]. *)
Definition invocations (k : Key) (g : Gate) : nat :=
  length (filter (fun k' => k' = k) (invoked g)).

(** What has been delivered for [k], in order. *)
Definition deliveries (k : Key) (g : Gate) : list (Caller * Outcome) :=
  (fun d => (d.1.1, d.2)) <$> filter (fun d => d.1.2 = k) (delivered g).

(** The part of a gate that concerns one key, and the effect on it of an
    event about that key. *)
Definition view (k : Key) (g : Gate)
  : option (list Caller) * nat * list (Caller * Outcome) :=
  (inflight g !! k, invocations k g, deliveries k g).

Definition view_step (v : option (list Caller) * nat * list (Caller * Outcome))
    (e : event) : option (list Caller) * nat * list (Caller * Outcome) :=
  match e, v.1.1 with
  | Call c _, None => (Some [c], S v.1.2, v.2)
  | Call c _, Some waiters => (Some (waiters ++ [c])%list, v.1.2, v.2)
  | Complete _ o, Some waiters =>
      (None, v.1.2, (v.2 ++ map (fun c => (c, o)) waiters)%list)
  | Complete _ _, None => v
  end.

End Gate.

End RequestGate.

(** ** The back end: PipelineOrchestrator

    The entry point of the request handlers of the back end, which is not
    among the sources either.  It is modelled from its written contract on
    top of the store and the gate above.  An adapter call is represented
    by its outcome, and a request by the time it arrives at and the time
    at which its adapter call returns. *)

Module Orchestrator.
Import Api SessionStore.

(** Modelled from the spec: the dedup key of the orchestrator, in place of
    the one built by the request handlers: the gate tells operations apart
    by (session, stage, key), the stage and key being those of the cache
    key. *)
Abbreviation DedupKey := (nat * CacheKey)%type.
Abbreviation Gate := (@RequestGate.Gate DedupKey nat string string _ _).
Abbreviation Outcome := (@RequestGate.Outcome string string).

(** Modelled from the spec: what an orchestrator call returns,
    [value | NotFound | UpstreamError]. *)
Inductive Result : Type :=
| Computed (value : string)
| NotFoundError
| UpstreamError (e : string).

Record Core := { store : Store; gate : Gate }.

(** [language] as it travels in the JSON body of the characters request. *)
Definition language_name (lang : Language) : string :=
  match lang with
  | english => "english"
  | telugu => "telugu"
  end.

(** Modelled from the spec: the cache key of the Characters stage,
    [("characters", language)]. *)
Definition charactersKey (lang : Language) : CacheKey :=
  (None, "characters", language_name lang).

(** Modelled from the spec: steps 3 and 4 of [getOrCompute].  The caller
    goes through [RequestGate.run]; when the invocation returns, at time
    [finish], every waiter receives its outcome and the registration is
    cleared; on success the value is written with [putCache], a write
    that is dropped if the session is gone by then; on failure nothing is
    cached. *)
Definition throughGate (finish : Z) (caller session : nat) (cacheKey : CacheKey)
    (outcome : Outcome) (core : Core) : Result * Core :=
  let dedupKey := (session, cacheKey) in
  let g := RequestGate.complete dedupKey outcome
             (RequestGate.run caller dedupKey (gate core)) in
  match outcome with
  | RequestGate.Success value =>
      (Computed value,
       {| store := default (store core)
                           (putCache finish session cacheKey value (store core));
          gate := g |})
  | RequestGate.Failure e =>
      (UpstreamError e, {| store := store core; gate := g |})
  end.

(** Modelled from the spec: [getOrCompute], steps 1 and 2 and then the
    gate. *)
Definition getOrCompute (arrive finish : Z) (caller session : nat)
    (cacheKey : CacheKey) (outcome : Outcome) (core : Core) : Result * Core :=
  match get arrive session (store core) with
  | NotFound => (NotFoundError, core)
  | Found _ =>
      match getCache arrive session cacheKey (store core) with
      | Hit value => (Computed value, core)
      | Missing | SessionNotFound =>
          throughGate finish caller session cacheKey outcome core
      end
  end.

(** Modelled from the spec: the re-generate variant, which bypasses step 2
    (the existing cache entry is not looked at) but still goes through the
    gate and overwrites the cache entry on success. *)
Definition regenerate (arrive finish : Z) (caller session : nat)
    (cacheKey : CacheKey) (outcome : Outcome) (core : Core) : Result * Core :=
  match get arrive session (store core) with
  | NotFound => (NotFoundError, core)
  | Found _ => throughGate finish caller session cacheKey outcome core
  end.

(** Modelled from the spec: the Characters row of the HTTP surface, in
    place of the request handler: a computed value is the body of an ok
    response, read by the client with [decode]; NotFound and UpstreamError
    are answered with a status that is not ok (404, 502). *)
Definition responds (decode : string -> CharactersResponse) (result : Result)
    (reply : Reply CharactersResponse) : Prop :=
  match result with
  | Computed value => reply = Ok (Read (decode value))
  | NotFoundError | UpstreamError _ => exists error, reply = NotOk error
  end.

End Orchestrator.

(** ** Concrete scenarios, used to exercise the statements below *)

Module Scenarios.
Import Api.

(** A server whose upload succeeds with session [s1] and whose page
    listing then fails, e.g. because the connection drops. *)
Definition flaky_server : Server :=
  {| upload_images := fun _ _ =>
       Ok (Read {| session_id := "s1"; page_count := 1;
                   message := "Processed 1 page" |});
     get_pages := fun _ _ => Rejected (ErrorObj "Failed to fetch");
     get_characters := fun _ _ _ => Rejected NotAnError;
     tts_english := fun _ _ _ => Rejected NotAnError;
     delete_session := fun _ _ => Ok (Read tt) |}.

Definition fresh_world : World UseSession.SessionState :=
  {| state := UseSession.initial; sent := []; live_urls := []; urls_made := 0 |}.

Definition one_jpeg : File :=
  {| file_name := "page1.jpg"; file_type := "image/jpeg"; file_size := 1024 |}.

Definition cinderella : Character :=
  {| name := "Cinderella"; role := "protagonist";
     relationships := ["Fairy Godmother"]; first_appearance_page := 1 |}.

(** A server on which every request succeeds. *)
Definition steady_server : Server :=
  {| upload_images := fun _ _ =>
       Ok (Read {| session_id := "s1"; page_count := 1;
                   message := "Processed 1 page" |});
     get_pages := fun _ _ =>
       Ok (Read {| pages_session_id := "s1";
                   pages := [{| page_number := 1; text := "Once upon a time" |}] |});
     get_characters := fun _ _ lang =>
       Ok (Read {| characters := [cinderella]; language := lang |});
     tts_english := fun _ _ _ =>
       Ok (Read {| blob_type := "audio/wav"; blob_data := "RIFF" |});
     delete_session := fun _ _ => Ok (Read tt) |}.

(** A character table showing a stale list. *)
Definition stale_table : World CharacterTable.TableState :=
  {| state := {| CharacterTable.characters :=
                   [{| name := "Old"; role := "stale"; relationships := [];
                       first_appearance_page := 2 |}];
                 CharacterTable.language := english;
                 CharacterTable.isLoading := false;
                 CharacterTable.error := None;
                 CharacterTable.hasLoaded := true |};
     sent := [GetCharacters "s1" english]; live_urls := []; urls_made := 0 |}.

(** The audio player as first rendered. *)
Definition silent_player : World AudioPlayer.PlayerState :=
  {| state := AudioPlayer.initial; sent := []; live_urls := []; urls_made := 0 |}.

Definition a_pdf : File :=
  {| file_name := "notes.pdf"; file_type := "application/pdf"; file_size := 2048 |}.

(** A history of the session store: a cache write, another session
    created, a reaper tick, and that other session deleted. *)
Definition one_page : list SessionStore.PageRecord :=
  [{| SessionStore.pageNumber := 1; SessionStore.rawText := "Once upon a time" |}].

Definition busy_history : list (Z * SessionStore.op) :=
  [(10, SessionStore.PutCache 0 (Some 1, "translate", "") "okappudu");
   (20, SessionStore.Create one_page);
   (30, SessionStore.ReaperTick);
   (40, SessionStore.Delete 1)].

(** The back end holding session 0 with a stale character list cached
    for English, and nothing in flight. *)
Definition stale_core : Orchestrator.Core :=
  {| Orchestrator.store :=
       SessionStore.run SessionStore.empty
         [(0, SessionStore.Create one_page);
          (5, SessionStore.PutCache 0 (Orchestrator.charactersKey english) "Old")];
     Orchestrator.gate := RequestGate.idle |}.

(** The JSON bodies of this scenario. *)
Definition read_characters (body : string) : CharactersResponse :=
  {| characters := if bool_decide (body = "Cinderella") then [cinderella] else [];
     language := english |}.

(** Three callers translating page 1 of session 7 while another key is
    also in use. *)
Definition translate_trace : list (@RequestGate.event (nat * Z) nat string string) :=
  [RequestGate.Call 10%nat (7%nat, 1);
   RequestGate.Call 77%nat (7%nat, 2);
   RequestGate.Call 11%nat (7%nat, 1);
   RequestGate.Complete (7%nat, 2) (RequestGate.Failure "timeout");
   RequestGate.Call 12%nat (7%nat, 1);
   RequestGate.Complete (7%nat, 1) (RequestGate.Success "okappudu")].

End Scenarios.

(** ** Handlers of one component run from another *)

Module Compose.
Import Api.

(** Run a handler of a component whose state is a part of a larger state:
    the part is read with [get] and written back with [put]; the requests
    sent and the object URLs are those of the page. *)
Definition zoom {A B X} (get : B -> A) (put : A -> B -> B)
    (m : Js (World A) X) : Js (World B) X :=
  fun w =>
    let r := m {| state := get (state w); sent := sent w;
                  live_urls := live_urls w; urls_made := urls_made w |} in
    (r.1, {| state := put (state r.2) (state w); sent := sent r.2;
             live_urls := live_urls r.2; urls_made := urls_made r.2 |}).

(** Run a handler of another component, whose state is [a], as seen from
    a component it does not touch: only the requests sent, the object URLs
    and the outcome are visible. *)
Definition elsewhere {A B X} (a : A) (m : Js (World A) X) : Js (World B) X :=
  fun w =>
    let r := m {| state := a; sent := sent w;
                  live_urls := live_urls w; urls_made := urls_made w |} in
    (r.1, {| state := state w; sent := sent r.2;
             live_urls := live_urls r.2; urls_made := urls_made r.2 |}).

End Compose.

(** ** hooks/useKeyboardShortcuts *)

Module KeyboardShortcuts.

(** What [handleKeyDown] reads of a [KeyboardEvent]: the key, and the tag
    name and editability of the target element. *)
Record KeyboardEvent :=
  { key : string; tagName : string; isContentEditable : bool }.

Inductive Callback : Type :=
| onNextPage
| onPrevPage
| onTogglePlayPause
| onSkipForward
| onSkipBackward.

(** [handleKeyDown]: [Some c] when the event is claimed
    ([event.preventDefault()]) and callback [c] is called, [None] when the
    handler returns without doing anything. *)
Definition handleKeyDown (event : KeyboardEvent) : option Callback :=
  if bool_decide (tagName event = "INPUT")
     || bool_decide (tagName event = "TEXTAREA")
     || isContentEditable event
  then None
  else if bool_decide (key event = "ArrowRight") then Some onSkipForward
  else if bool_decide (key event = "ArrowLeft") then Some onSkipBackward
  else if bool_decide (key event = "ArrowDown") then Some onNextPage
  else if bool_decide (key event = "ArrowUp") then Some onPrevPage
  else if bool_decide (key event = " ") then Some onTogglePlayPause
  else None.

(** The target is a field the user types into. *)
Definition typing (event : KeyboardEvent) : Prop :=
  tagName event = "INPUT" ∨ tagName event = "TEXTAREA"
  ∨ isContentEditable event = true.

End KeyboardShortcuts.

(** ** app/page.tsx: the [Home] component *)

Module Home.
Import Api Compose.
Local Open Scope js_scope.

(** The state of [Home]: that of [useSession] and the current page. *)
Record HomeState :=
  { session : UseSession.SessionState; currentPage : Z }.

Definition with_session {X} (m : Js (World UseSession.SessionState) X)
  : Js (World HomeState) X :=
  zoom session
       (fun s h => {| session := s; currentPage := currentPage h |}) m.

Definition setCurrentPage (f : Z -> Z) : Js (World HomeState) unit :=
  set_state (fun h => {| session := session h;
                         currentPage := f (currentPage h) |}).

Section Component.
Context (srv : Server).

(** [handleUpload]: [await upload(files); setCurrentPage(1);] *)
Definition handleUpload (files : list File) : Js (World HomeState) unit :=
  with_session (UseSession.upload srv files) ;;
  setCurrentPage (fun _ => 1).

(** [handleNewSession]: [await clearSession(); setCurrentPage(1);] *)
Definition handleNewSession : Js (World HomeState) unit :=
  with_session (UseSession.clearSession srv) ;;
  setCurrentPage (fun _ => 1).

End Component.

(** What [uploadImages] throws on a response that is not ok:
    [const error = await response.json();
     throw new Error(error.detail || 'Upload failed');]
    for a body that is a JSON object an [Error] made from its [detail];
    for a body that cannot be read as one (not JSON, or [null]) the error
    raised while reading it. *)
Definition refusal (error : Body (option string)) : Thrown :=
  match error with
  | Read detail => ErrorObj (js_or detail "Upload failed")
  | Unreadable e => e
  end.

(** What the navigation callbacks of a render capture. *)
Definition nav (h : HomeState) : Navigation.nav :=
  {| Navigation.currentPage := currentPage h;
     Navigation.pagesLength := Z.of_nat (length (UseSession.pages (session h))) |}.

(** [enabled: !!sessionId && pages.length > 0] *)
Definition shortcutsEnabled (h : HomeState) : bool :=
  truthy (UseSession.sessionId (session h))
  && (Z.of_nat (length (UseSession.pages (session h))) >? 0).

(** A key press on the window, while the state React holds is [h] and
    the keydown listener is the one installed by the effect of the render
    of [captured]: there is a listener only if the shortcuts were enabled
    in that render; its page callbacks are the [goToNextPage] and
    [goToPrevPage] of that render, the other callbacks act on the audio
    player and leave the state of [Home] alone. *)
Definition onKeyDown (captured h : HomeState)
    (event : KeyboardShortcuts.KeyboardEvent) : HomeState :=
  if shortcutsEnabled captured then
    match KeyboardShortcuts.handleKeyDown event with
    | Some KeyboardShortcuts.onNextPage =>
        {| session := session h;
           currentPage := Navigation.goToNextPage (nav captured) (currentPage h) |}
    | Some KeyboardShortcuts.onPrevPage =>
        {| session := session h;
           currentPage := Navigation.goToPrevPage (nav captured) (currentPage h) |}
    | _ => h
    end
  else h.

(** [Home] on the page: the state React holds and the state captured by
    the render whose listener is installed. *)
Record Mounted := { latest : HomeState; rendered : HomeState }.

Definition display (h : HomeState) : Mounted := {| latest := h; rendered := h |}.

Inductive happening : Type :=
| KeyDown (event : KeyboardShortcuts.KeyboardEvent)
| Render.   (* React renders the latest state and its effects run *)

Definition happen (m : Mounted) (x : happening) : Mounted :=
  match x with
  | KeyDown event => {| latest := onKeyDown (rendered m) (latest m) event;
                        rendered := rendered m |}
  | Render => display (latest m)
  end.

Definition happenings (m : Mounted) (xs : list happening) : Mounted :=
  fold_left happen xs m.

(** Key presses between which [Home] has rendered again, as it has
    between two key presses of a user. *)
Definition pressed (events : list KeyboardShortcuts.KeyboardEvent)
  : list happening :=
  flat_map (fun event => [KeyDown event; Render]) events.

End Home.

(** ** components/ReaderView: the page shown and the thumbnails *)

Module ReaderView.
Import Api.

(** [pages.find(p => p.page_number === currentPage)] *)
Definition page (pages : list PageText) (currentPage : Z) : option PageText :=
  List.find (fun p => page_number p =? currentPage) pages.

Inductive action : Type :=
| Previous
| Next
| Thumbnail (index : nat).

(** One click in the header or on a thumbnail; the result is what
    [onPageChange] receives, or the current page when nothing is called.
    The thumbnails are rendered only when there is more than one page. *)
Definition click (pages : list PageText) (currentPage : Z) (a : action) : Z :=
  let props := {| Navigation.currentPage := currentPage;
                  Navigation.pagesLength := Z.of_nat (length pages) |} in
  match a with
  | Previous => Navigation.goToPrevious props currentPage
  | Next => Navigation.goToNext props currentPage
  | Thumbnail index =>
      if Z.of_nat (length pages) >? 1 then
        match pages !! index with
        | Some p => page_number p
        | None => currentPage
        end
      else currentPage
  end.

Definition clicks (pages : list PageText) (currentPage : Z) (acts : list action)
  : Z :=
  fold_left (click pages) acts currentPage.

(** The pages are numbered 1..N in order. *)
Definition numbered (pages : list PageText) : Prop :=
  forall i p, pages !! i = Some p -> page_number p = Z.of_nat i + 1.

End ReaderView.

(** ** components/AudioPlayer: play/pause and the clean-up effect *)

Module AudioControls.
Import Api AudioPlayer.
Local Open Scope js_scope.

(** [audioRef.current.play()] *)
Definition playAudio : Js (World PlayerState) unit :=
  set_state (fun s => {| isLoading := isLoading s; isPlaying := isPlaying s;
                         audioUrl := audioUrl s; error := error s;
                         progress := progress s;
                         audioRef := match audioRef s with
                                     | Some _ => Some {| paused := false |}
                                     | None => None
                                     end;
                         loadedPageRef := loadedPageRef s |}).

Section Component.
Context (srv : Server) (sessionId : string).

(** [togglePlayPause]: without an audio URL it loads the audio of the
    current page and returns; otherwise it pauses or plays the element. *)
Definition togglePlayPause (currentPage : Z) : Js (World PlayerState) unit :=
  s <- get_state ;;
  if negb (truthy (audioUrl s)) then loadAudio srv sessionId currentPage
  else
    when (bool_decide (is_Some (audioRef s)))
         (if isPlaying s then pauseAudio else playAudio).

(** The clean-up of the effect on [audioUrl], as run on unmount. *)
Definition cleanup : Js (World PlayerState) unit :=
  s <- get_state ;;
  when (truthy (audioUrl s))
       (match audioUrl s with
        | Some url => revokeObjectURL url
        | None => ret tt
        end).

(** The two ways audio gets requested, each with the current page of the
    render in which it happens. *)
Inductive request : Type :=
| Generate (currentPage : Z)   (* the generate button: [loadAudio] *)
| Toggle (currentPage : Z).    (* the play button or the space key *)

Definition handle (w : World PlayerState) (r : request) : World PlayerState :=
  match r with
  | Generate currentPage => (loadAudio srv sessionId currentPage w).2
  | Toggle currentPage => (togglePlayPause currentPage w).2
  end.

Definition run (w : World PlayerState) (rs : list request) : World PlayerState :=
  fold_left handle rs w.

End Component.

(** At most one object URL is live, and it is the one the player holds. *)
Definition one_live (w : World PlayerState) : Prop :=
  live_urls w = []
  ∨ ∃ url, live_urls w = [url] ∧ audioUrl (state w) = Some url
           ∧ truthy (Some url) = true.

End AudioControls.

(** ** components/CharacterTable: language buttons and search *)

Module CharacterSearch.
Import Api CharacterTable.
Local Open Scope js_scope.

Section Component.
Context (srv : Server) (sessionId : string).

(** A language button:
    [setLanguage(lang); if (hasLoaded) handleExtractCharacters(lang);] *)
Definition selectLanguage (lang : Language) : Js (World TableState) unit :=
  s <- get_state ;;
  setLanguage lang ;;
  when (hasLoaded s) (handleExtractCharacters srv sessionId lang).

End Component.

(** [s.includes(t)] *)
Fixpoint includes (s t : string) : bool :=
  String.prefix t s
  || match s with
     | EmptyString => false
     | String _ rest => includes rest t
     end.

Section Search.
(** [String.prototype.toLowerCase], taken as given. *)
Context (toLowerCase : string -> string).

Definition matches (searchQuery : string) (char : Character) : bool :=
  includes (toLowerCase (name char)) (toLowerCase searchQuery)
  || includes (toLowerCase (role char)) (toLowerCase searchQuery).

Definition filteredCharacters (characters : list Character)
    (searchQuery : string) : list Character :=
  filter (fun char => matches searchQuery char = true) characters.

(** The "No characters matching" notice: inside
    [isExpanded && (...)] and
    [hasLoaded && !isLoading && characters.length > 0 && (...)], it is
    rendered when [filteredCharacters.length === 0 && searchQuery]. *)
Definition noMatchShown (isExpanded : bool) (s : TableState)
    (searchQuery : string) : bool :=
  isExpanded
  && (hasLoaded s && negb (isLoading s)
      && (Z.of_nat (length (characters s)) >? 0))
  && ((Z.of_nat (length (filteredCharacters (characters s) searchQuery)) =? 0)
      && truthy (Some searchQuery)).

End Search.

(** Lower-casing of the ASCII letters. *)
Definition ascii_lower (c : Ascii.ascii) : Ascii.ascii :=
  let n := Ascii.nat_of_ascii c in
  if (65 <=? n)%nat && (n <=? 90)%nat then Ascii.ascii_of_nat (n + 32) else c.

Fixpoint lower (s : string) : string :=
  match s with
  | EmptyString => EmptyString
  | String c rest => String (ascii_lower c) (lower rest)
  end.

End CharacterSearch.

(** ** components/ImageUploader: all the events of the selection *)

Module UploaderEvents.
Import Api ImageUploader.
Local Open Scope js_scope.

Inductive event : Type :=
| Select (files : option (list File))
| Remove (index : nat)
| Clear
| OpenCamera
| Capture (file : File)
| CloseCamera.

Definition handle (maxFiles : Z) (ev : event) : Js (World UploaderState) unit :=
  match ev with
  | Select files => handleFileSelect maxFiles files
  | Remove index => s <- get_state ;; removeFile s index
  | Clear => s <- get_state ;; clearAll s
  | OpenCamera => openCamera maxFiles
  | Capture file => handleCameraCapture file
  | CloseCamera => setShowCamera false
  end.

Definition run (maxFiles : Z) (w : World UploaderState) (evs : list event)
  : World UploaderState :=
  fold_left (fun w ev => (handle maxFiles ev w).2) evs w.

(** The object URLs of the page are exactly the previews shown, one per
    selected file, all distinct and all handed out earlier. *)
Definition tidy (w : World UploaderState) : Prop :=
  live_urls w = previews (state w)
  ∧ length (previews (state w)) = length (selectedFiles (state w))
  ∧ NoDup (previews (state w))
  ∧ Forall (fun url => ∃ k : nat, (k < urls_made w)%nat
                                  ∧ url = "blob:" +:+ pretty k)
           (previews (state w)).

(** The world in which [handleUpload] calls [onUpload]: uploading, with
    the previous error cleared. *)
Definition uploading (w : World UploaderState) : World UploaderState :=
  {| state := {| selectedFiles := selectedFiles (state w);
                 previews := previews (state w);
                 isUploading := true;
                 error := None;
                 showCamera := showCamera (state w) |};
     sent := sent w; live_urls := live_urls w; urls_made := urls_made w |}.

(** [onUpload] as [Home] passes it: [handleUpload] of [Home], which works
    on the state of [Home] and not on that of the uploader. *)
Definition onUpload_of_Home (srv : Server) (home : Home.HomeState)
    (files : list File) : Js (World UploaderState) unit :=
  Compose.elsewhere home (Home.handleUpload srv files).

End UploaderEvents.

(** ** hooks/useReaderPreferences: theme and persistence *)

Module Preferences.
Import ReaderPreferences.

Inductive Theme : Type := light | dark.

Definition theme_name (t : Theme) : string :=
  match t with light => "light" | dark => "dark" end.

(** The hook's state. *)
Record Prefs := { fontSize : Z; theme : Theme; isLoaded : bool }.

Definition initial : Prefs :=
  {| fontSize := DEFAULT_FONT_SIZE; theme := dark; isLoaded := false |}.

(** What [JSON.parse(stored) as Partial<ReaderPreferences>] yields, for a
    stored object whose [fontSize], when present, is an integer and whose
    [theme], when present, is a string. *)
Record StoredPrefs :=
  { stored_fontSize : option Z; stored_theme : option string }.

(** What the mount effect finds under the storage key: nothing (or an
    empty string), text that [JSON.parse] rejects, or an object. *)
Inductive Item : Type :=
| Absent
| Corrupt
| Object (prefs : StoredPrefs).

(** The mount effect. *)
Definition mount (item : Item) (s : Prefs) : Prefs :=
  match item with
  | Object prefs =>
      {| fontSize := loadFontSize (stored_fontSize prefs) (fontSize s);
         theme := match stored_theme prefs with
                  | Some t =>
                      if bool_decide (t = "light") then light
                      else if bool_decide (t = "dark") then dark
                      else theme s
                  | None => theme s
                  end;
         isLoaded := true |}
  | Absent | Corrupt =>
      {| fontSize := fontSize s; theme := theme s; isLoaded := true |}
  end.

(** The save effect: [JSON.stringify({ fontSize, theme })] is written once
    the preferences are loaded; [None] when nothing is written. *)
Definition save (s : Prefs) : option Item :=
  if isLoaded s then
    Some (Object {| stored_fontSize := Some (fontSize s);
                    stored_theme := Some (theme_name (theme s)) |})
  else None.

Definition toggleTheme (s : Prefs) : Prefs :=
  {| fontSize := fontSize s;
     theme := match theme s with dark => light | light => dark end;
     isLoaded := isLoaded s |}.

Inductive action : Type := IncreaseFont | DecreaseFont | ToggleTheme.

Definition step (s : Prefs) (a : action) : Prefs :=
  match a with
  | IncreaseFont => {| fontSize := increaseFontSize (fontSize s);
                       theme := theme s; isLoaded := isLoaded s |}
  | DecreaseFont => {| fontSize := decreaseFontSize (fontSize s);
                       theme := theme s; isLoaded := isLoaded s |}
  | ToggleTheme => toggleTheme s
  end.

Definition run (s : Prefs) (acts : list action) : Prefs := fold_left step acts s.

End Preferences.

(** ** components/ReaderView: when the header buttons are disabled *)

Module Controls.

(** [disabled={currentPage <= 1}] *)
Definition previousDisabled (currentPage : Z) : bool := currentPage <=? 1.

(** [disabled={currentPage >= totalPages}] *)
Definition nextDisabled (currentPage totalPages : Z) : bool :=
  currentPage >=? totalPages.

(** [disabled={!canDecrease}] and [disabled={!canIncrease}], with the
    values [Home] passes down from [useReaderPreferences]. *)
Definition decreaseDisabled (fontSize : Z) : bool :=
  negb (ReaderPreferences.canDecrease fontSize).

Definition increaseDisabled (fontSize : Z) : bool :=
  negb (ReaderPreferences.canIncrease fontSize).

End Controls.

(** ** components/AudioPlayer: what the buttons offer *)

Module AudioButtons.
Import Api AudioPlayer AudioControls.

(** The generate button is rendered when [!audioUrl && !isLoading]. *)
Definition generateOffered (s : PlayerState) : bool :=
  negb (truthy (audioUrl s)) && negb (isLoading s).

(** What the user can do to get audio, on the page being read: press the
    generate button (when it is there), or press play or the space key. *)
Inductive press : Type :=
| PressGenerate (currentPage : Z)
| PressPlay (currentPage : Z).

Section Component.
Context (srv : Server) (sessionId : string).

Definition pressed (w : World PlayerState) (p : press) : World PlayerState :=
  match p with
  | PressGenerate currentPage =>
      if generateOffered (state w) then (loadAudio srv sessionId currentPage w).2
      else w
  | PressPlay currentPage => (togglePlayPause srv sessionId currentPage w).2
  end.

Definition presses (w : World PlayerState) (ps : list press) : World PlayerState :=
  fold_left pressed ps w.

End Component.

End AudioButtons.

(** ** More scenarios *)

Module MoreScenarios.
Import Api.

(** [Home] before any upload, and reading page 2 of a three-page session. *)
Definition fresh_home : World Home.HomeState :=
  {| state := {| Home.session := UseSession.initial; Home.currentPage := 1 |};
     sent := []; live_urls := []; urls_made := 0 |}.

Definition three_pages : list PageText :=
  [{| page_number := 1; text := "Once upon a time" |};
   {| page_number := 2; text := "there was a girl" |};
   {| page_number := 3; text := "called Cinderella." |}].

Definition reading_home : Home.HomeState :=
  {| Home.session :=
       {| UseSession.sessionId := Some "s1"; UseSession.pages := three_pages;
          UseSession.isLoading := false; UseSession.error := None |};
     Home.currentPage := 2 |}.

(** ArrowDown twice (the second at the last page), ArrowRight, a space
    typed into the search box, then ArrowUp. *)
Definition some_keys : list KeyboardShortcuts.KeyboardEvent :=
  [{| KeyboardShortcuts.key := "ArrowDown"; KeyboardShortcuts.tagName := "BODY";
      KeyboardShortcuts.isContentEditable := false |};
   {| KeyboardShortcuts.key := "ArrowDown"; KeyboardShortcuts.tagName := "BODY";
      KeyboardShortcuts.isContentEditable := false |};
   {| KeyboardShortcuts.key := "ArrowRight"; KeyboardShortcuts.tagName := "BODY";
      KeyboardShortcuts.isContentEditable := false |};
   {| KeyboardShortcuts.key := "ArrowUp"; KeyboardShortcuts.tagName := "INPUT";
      KeyboardShortcuts.isContentEditable := false |};
   {| KeyboardShortcuts.key := "ArrowUp"; KeyboardShortcuts.tagName := "BUTTON";
      KeyboardShortcuts.isContentEditable := false |}].

Definition arrow_down : KeyboardShortcuts.KeyboardEvent :=
  {| KeyboardShortcuts.key := "ArrowDown"; KeyboardShortcuts.tagName := "BODY";
     KeyboardShortcuts.isContentEditable := false |}.

(** A server that refuses every upload. *)
Definition strict_server : Server :=
  {| upload_images := fun _ _ => NotOk (Read (Some "No files provided"));
     get_pages := fun _ _ => NotOk (Read (Some "Session not found"));
     get_characters := fun _ _ _ => NotOk (Read None);
     tts_english := fun _ _ _ => NotOk (Read (Some "TTS generation failed"));
     delete_session := fun _ _ => NotOk (Read (Some "Session not found")) |}.

(** A proxy in front of the server that answers every request with an
    HTML error page: a status that is not ok and a body that is not JSON. *)
Definition failing_proxy : Server :=
  let html : Thrown := ErrorObj "Unexpected token < in JSON at position 0" in
  {| upload_images := fun _ _ => NotOk (Unreadable html);
     get_pages := fun _ _ => NotOk (Unreadable html);
     get_characters := fun _ _ _ => NotOk (Unreadable html);
     tts_english := fun _ _ _ => NotOk (Unreadable html);
     delete_session := fun _ _ => NotOk (Unreadable html) |}.

(** A server that has audio for page 1 only. *)
Definition page_one_only : Server :=
  {| upload_images := fun _ _ => NotOk (Read None);
     get_pages := fun _ _ => NotOk (Read None);
     get_characters := fun _ _ _ => NotOk (Read None);
     tts_english := fun _ _ page =>
       if page =? 1 then Ok (Read {| blob_type := "audio/wav"; blob_data := "RIFF" |})
       else NotOk (Read (Some "Page not found"));
     delete_session := fun _ _ => Ok (Read tt) |}.

(** The player once the audio of page 1 is loaded. *)
Definition page_one_loaded : World AudioPlayer.PlayerState :=
  (AudioPlayer.loadAudio page_one_only "s1" 1 Scenarios.silent_player).2.

(** The characters of a table. *)
Definition cast : list Character :=
  [Scenarios.cinderella;
   {| name := "Fairy Godmother"; role := "helper";
      relationships := ["Cinderella"]; first_appearance_page := 2 |};
   {| name := "Prince"; role := "suitor"; relationships := [];
      first_appearance_page := 3 |}].

(** Two pictures chosen, a document refused, the camera used once, the
    first preview removed. *)
Definition busy_selection : list UploaderEvents.event :=
  [UploaderEvents.Select (Some [Scenarios.one_jpeg]);
   UploaderEvents.Select (Some [Scenarios.a_pdf]);
   UploaderEvents.OpenCamera;
   UploaderEvents.Capture
     {| file_name := "photo_1.jpg"; file_type := "image/jpeg"; file_size := 4096 |};
   UploaderEvents.Select (Some [Scenarios.one_jpeg]);
   UploaderEvents.Remove 0;
   UploaderEvents.Remove 9].

(** The uploader with one picture selected, and an [onUpload] that
    succeeds without a trace. *)
Definition one_selected : World ImageUploader.UploaderState :=
  UploaderEvents.run 15 ImageUploader.empty_world
    [UploaderEvents.Select (Some [Scenarios.one_jpeg])].

Definition accepting_onUpload (files : list File)
  : Js (World ImageUploader.UploaderState) unit :=
  ret tt.

(** Fourteen pictures chosen one by one through the file input, then
    "Take Photo" and two photos handed over by the camera (the capture
    button pressed twice before the first photo is encoded), the second
    of 20 MB. *)
Definition large_photo : File :=
  {| file_name := "photo_2.jpg"; file_type := "image/jpeg";
     file_size := 20 * 1024 * 1024 |}.

Definition through_the_camera : list UploaderEvents.event :=
  (replicate 14 (UploaderEvents.Select (Some [Scenarios.one_jpeg]))
   ++ [UploaderEvents.OpenCamera;
       UploaderEvents.Capture
         {| file_name := "photo_1.jpg"; file_type := "image/jpeg";
            file_size := 4096 |};
       UploaderEvents.Capture large_photo])%list.

Definition overfull : World ImageUploader.UploaderState :=
  UploaderEvents.run 15 ImageUploader.empty_world through_the_camera.

(** A picture of exactly 10 MB. *)
Definition ten_megabytes : File :=
  {| file_name := "scan.png"; file_type := "image/png"; file_size := 10485760 |}.

End MoreScenarios.

(** * Properties *)

(** Unfolding of the monad and of the world accessors, for symbolic runs
    of a handler. *)
Ltac js_unfold :=
  unfold bind, ret, throw, try_catch, finally, when, modify, get_world,
    Api.set_state, Api.get_state, Api.createObjectURL, Api.revokeObjectURL,
    Api.call in *.

Module ReaderPreferencesFacts.
Import ReaderPreferences.

Lemma increase_in_range f : in_range f -> in_range (increaseFontSize f).
Proof.
  unfold in_range, increaseFontSize, MIN_FONT_SIZE, MAX_FONT_SIZE, FONT_SIZE_STEP.
  lia.
Qed.

Lemma decrease_in_range f : in_range f -> in_range (decreaseFontSize f).
Proof.
  unfold in_range, decreaseFontSize, MIN_FONT_SIZE, MAX_FONT_SIZE, FONT_SIZE_STEP.
  lia.
Qed.

Lemma step_in_range f a : in_range f -> in_range (step f a).
Proof. destruct a; [apply increase_in_range | apply decrease_in_range]. Qed.

Lemma run_in_range acts : forall f, in_range f -> in_range (run f acts).
Proof.
  induction acts as [|a acts IH]; intros f Hf; [exact Hf|].
  apply IH, step_in_range, Hf.
Qed.

Lemma load_in_range stored f : in_range f -> in_range (loadFontSize stored f).
Proof.
  intros Hf. unfold loadFontSize. destruct stored as [g|]; [|exact Hf].
  destruct (negb (g =? 0) && (g >=? MIN_FONT_SIZE) && (g <=? MAX_FONT_SIZE))
    eqn:E; [|exact Hf].
  apply andb_true_iff in E as [E E3]. apply andb_true_iff in E as [_ E2].
  unfold in_range. lia.
Qed.

(** C9. Starting from a font size between 14 and 28, any sequence of
    [increaseFontSize] (add 2, capped at 28) and [decreaseFontSize]
    (subtract 2, floored at 14) leaves the font size between 14 and 28;
    [canIncrease] holds exactly below 28 and [canDecrease] exactly
    above 14. *)
Theorem font_size_stays_in_range (start : Z) (acts : list action) :
  14 <= start <= 28 ->
  14 <= run start acts <= 28
  /\ increaseFontSize start = Z.min 28 (start + 2)
  /\ decreaseFontSize start = Z.max 14 (start - 2)
  /\ (forall f, canIncrease f = true <-> f < 28)
  /\ (forall f, canDecrease f = true <-> f > 14).
Proof.
  intros Hs. split; [|split; [|split; [|split]]].
  - apply (run_in_range acts start). exact Hs.
  - reflexivity.
  - reflexivity.
  - intros f. unfold canIncrease, MAX_FONT_SIZE. lia.
  - intros f. unfold canDecrease, MIN_FONT_SIZE. lia.
Qed.

Lemma font_size_stays_in_range_witness :
  14 <= run 18 [Increase; Increase; Increase; Increase; Increase; Increase; Decrease] <= 28.
Proof.
  apply (font_size_stays_in_range 18
           [Increase; Increase; Increase; Increase; Increase; Increase; Decrease]).
  lia.
Defined.

End ReaderPreferencesFacts.

Module NavigationFacts.
Import Navigation.

Lemma handle_pagesLength captured s a :
  pagesLength (handle captured s a) = pagesLength s.
Proof. reflexivity. Qed.

(** A step handled by the callbacks of the render of the state itself. *)
Lemma step_valid s a : valid s -> valid (handle s s a).
Proof.
  unfold valid. destruct s as [p n]; destruct a; simpl;
    unfold goToNextPage, goToPrevPage, goToNext, goToPrevious; simpl;
    intros H.
  - destruct (Z.ltb_spec p n); lia.
  - destruct (Z.gtb_spec p 1); lia.
  - destruct (Z.ltb_spec p n); lia.
  - destruct (Z.gtb_spec p 1); lia.
Qed.

Lemma run_apart_valid acts : forall s,
  valid s ->
  valid (latest (run (display s) (apart acts)))
  /\ pagesLength (latest (run (display s) (apart acts))) = pagesLength s.
Proof.
  induction acts as [|a acts IH]; intros s Hs; [split; [exact Hs | reflexivity]|].
  change (run (display s) (apart (a :: acts)))
    with (run (display (handle s s a)) (apart acts)).
  destruct (IH (handle s s a) (step_valid s a Hs)) as [Hv Hn].
  split; [exact Hv|]. rewrite Hn. apply handle_pagesLength.
Qed.

(** The buttons of [ReaderView] set the page from the props of their
    render, so they keep the page in range whichever render handles them. *)
Lemma clicks_valid es : forall m,
  Forall click es ->
  valid (latest m) -> valid (rendered m) ->
  pagesLength (rendered m) = pagesLength (latest m) ->
  valid (latest (run m es)).
Proof.
  induction es as [|e es IH]; intros m Hes Hl Hr Hn; [exact Hl|].
  apply Forall_cons in Hes as [[Hnext Hprev] Hes].
  simpl. apply IH; [exact Hes | | |].
  - destruct e as [[]|]; try congruence; [| |exact Hl];
      destruct m as [[p n] [q k]]; unfold valid in *; simpl in *;
      unfold goToNext, goToPrevious; simpl; subst k.
    + destruct (Z.ltb_spec q n); lia.
    + destruct (Z.gtb_spec q 1); lia.
  - destruct e; [exact Hr | exact Hl].
  - destruct e; [exact Hn | reflexivity].
Qed.

(** C10. The guard of [goToNextPage] and [goToPrevPage] reads the page
    captured by the render that created the callback, while the update
    is applied to the latest state.  Handled by the render of the state
    itself, each handler moves by one exactly when the page is strictly
    inside the range, and steps between which [Home] renders again keep
    the page in [1, N].  Two steps handled by one render do not: from
    page N - 1 two [goToNextPage] calls lead to page N + 1, and from
    page 2 two [goToPrevPage] calls lead to page 0, whereas the buttons
    of [ReaderView], which set the page from their props, stay in
    range however they are handled. *)
Theorem stale_goToNextPage_leaves_range (n : Z) :
  2 <= n ->
  let last_but_one := {| currentPage := n - 1; pagesLength := n |} in
  let second := {| currentPage := 2; pagesLength := n |} in
  valid last_but_one /\ valid second
  /\ currentPage (latest (run (display last_but_one) [Do KeyNext; Do KeyNext]))
     = n + 1
  /\ currentPage (latest (run (display second) [Do KeyPrev; Do KeyPrev])) = 0
  /\ ~ valid (latest (run (display last_but_one) [Do KeyNext; Do KeyNext]))
  /\ ~ valid (latest (run (display second) [Do KeyPrev; Do KeyPrev]))
  /\ (forall p, 1 <= p <= n ->
        let s := {| currentPage := p; pagesLength := n |} in
        goToNextPage s p = (if p <? n then p + 1 else p)
        /\ goToNext s p = (if p <? n then p + 1 else p)
        /\ goToPrevPage s p = (if p >? 1 then p - 1 else p)
        /\ goToPrevious s p = (if p >? 1 then p - 1 else p))
  /\ (forall p acts, 1 <= p <= n ->
        valid (latest (run (display {| currentPage := p; pagesLength := n |})
                           (apart acts))))
  /\ (forall p es, 1 <= p <= n -> Forall click es ->
        valid (latest (run (display {| currentPage := p; pagesLength := n |})
                           es))).
Proof.
  intros Hn last_but_one second.
  assert (Hup : currentPage (latest (run (display last_but_one)
                                         [Do KeyNext; Do KeyNext])) = n + 1).
  { simpl. unfold goToNextPage. simpl.
    destruct (Z.ltb_spec (n - 1) n); lia. }
  assert (Hdown : currentPage (latest (run (display second)
                                           [Do KeyPrev; Do KeyPrev])) = 0).
  { simpl. unfold goToPrevPage. simpl. reflexivity. }
  split; [unfold valid; simpl; lia|]. split; [unfold valid; simpl; lia|].
  split; [exact Hup|]. split; [exact Hdown|].
  split; [unfold valid; rewrite Hup; simpl; lia|].
  split; [unfold valid; rewrite Hdown; simpl; lia|].
  split; [intros p Hp s; repeat split; reflexivity|].
  split.
  - intros p acts Hp. apply run_apart_valid. exact Hp.
  - intros p es Hp Hes. apply clicks_valid; [exact Hes | exact Hp | exact Hp|].
    reflexivity.
Qed.

Lemma stale_goToNextPage_leaves_range_witness :
  currentPage (latest (run (display {| currentPage := 2; pagesLength := 3 |})
                           [Do KeyNext; Do KeyNext])) = 4
  /\ valid (latest (run (display {| currentPage := 2; pagesLength := 3 |})
                        [Do ClickNext; Do ClickNext]))
  /\ valid (latest (run (display {| currentPage := 2; pagesLength := 3 |})
                        (apart [KeyNext; ClickNext; KeyNext; ClickPrevious;
                                KeyPrev; KeyPrev]))).
Proof.
  destruct (stale_goToNextPage_leaves_range 3)
    as (_ & _ & Hup & _ & _ & _ & _ & Hapart & Hclicks).
  - lia.
  - split; [exact Hup|]. split.
    + apply (Hclicks 2 [Do ClickNext; Do ClickNext]); [lia|].
      repeat constructor; discriminate.
    + apply (Hapart 2); lia.
Defined.

End NavigationFacts.

Module UseSessionFacts.
Import Api UseSession Scenarios.

(** When the upload request itself fails, no session id is recorded. *)
Lemma upload_request_fails_no_session srv files w :
  (forall r, upload_images srv (sent w) files <> Ok (Read r)) ->
  exists e,
    (upload srv files w).1 = Throw e
    /\ sessionId (state (upload srv files w).2) = sessionId (state w)
    /\ pages (state (upload srv files w).2) = pages (state w).
Proof.
  intros Hfail. destruct w as [s sn lu um]. simpl in *.
  unfold upload, uploadImages, getPages, setIsLoading, setError, setSessionId,
    setPages. js_unfold. simpl.
  destruct (upload_images srv sn files) as [e|[d|e]|[r|e]]; simpl; eauto.
  exfalso. apply (Hfail r). reflexivity.
Qed.

(** When both requests succeed, the session id and its pages are set. *)
Lemma upload_succeeds srv files w r p :
  upload_images srv (sent w) files = Ok (Read r) ->
  get_pages srv (sent w ++ [UploadImages files]) (session_id r) = Ok (Read p) ->
  (upload srv files w).1 = Normal r
  /\ sessionId (state (upload srv files w).2) = Some (session_id r)
  /\ pages (state (upload srv files w).2) = Api.pages p.
Proof.
  intros Hup Hpg. destruct w as [s sn lu um]. simpl in *.
  unfold upload, uploadImages, getPages, setIsLoading, setError, setSessionId,
    setPages. js_unfold. simpl.
  rewrite Hup. simpl. rewrite Hpg. simpl. auto.
Qed.

(** When the upload request succeeds and the page listing does not, the
    call throws but the session id has already been recorded, with the
    pages left as they were. *)
Lemma upload_listing_fails_partial srv files w r :
  upload_images srv (sent w) files = Ok (Read r) ->
  (forall p, get_pages srv (sent w ++ [UploadImages files]) (session_id r)
             <> Ok (Read p)) ->
  exists e,
    (upload srv files w).1 = Throw e
    /\ sessionId (state (upload srv files w).2) = Some (session_id r)
    /\ pages (state (upload srv files w).2) = pages (state w)
    /\ error (state (upload srv files w).2) = Some (message_or e "Upload failed").
Proof.
  intros Hup Hfail. destruct w as [s sn lu um]. simpl in *.
  unfold upload, uploadImages, getPages, setIsLoading, setError, setSessionId,
    setPages. js_unfold. simpl.
  rewrite Hup. simpl.
  destruct (get_pages srv (sn ++ [UploadImages files]) (session_id r))
    as [e|[d|e]|[p|e]]; simpl; eauto.
  exfalso. apply (Hfail p). reflexivity.
Qed.

(** C3. [upload] is not all-or-nothing on the client: when the upload
    request succeeds and the following page listing fails, the call
    throws, yet the hook keeps the new session id with an empty page list;
    [Home] then shows neither the uploader nor the reader. *)
Theorem upload_leaves_partial_session :
  (upload flaky_server [one_jpeg] fresh_world).1 = Throw (ErrorObj "Failed to fetch")
  /\ sessionId (state (upload flaky_server [one_jpeg] fresh_world).2) = Some "s1"
  /\ pages (state (upload flaky_server [one_jpeg] fresh_world).2) = []
  /\ error (state (upload flaky_server [one_jpeg] fresh_world).2)
     = Some "Failed to fetch"
  /\ screen (state (upload flaky_server [one_jpeg] fresh_world).2) = NeitherScreen.
Proof. vm_compute. repeat split; reflexivity. Qed.

(** C6. Ending a session always succeeds: whatever the server answers to
    the DELETE request (success, an error status for a session that does
    not exist, a network failure), [clearSession] completes without error
    and leaves [sessionId] null, [pages] empty and [error] null; it sends
    the request only when there is a session id; and clearing again
    changes nothing and sends nothing. *)
Theorem clearSession_always_succeeds (srv : Server) (w : World SessionState) :
  (clearSession srv w).1 = Normal tt
  /\ sessionId (state (clearSession srv w).2) = None
  /\ pages (state (clearSession srv w).2) = []
  /\ error (state (clearSession srv w).2) = None
  /\ sent (clearSession srv w).2
     = (sent w ++ match sessionId (state w) with
                  | Some id => if truthy (Some id) then [DeleteSession id] else []
                  | None => []
                  end)%list
  /\ clearSession srv (clearSession srv w).2 = (Normal tt, (clearSession srv w).2).
Proof.
  destruct w as [[sid pg ld er] sn lu um].
  unfold clearSession, deleteSession, setSessionId, setPages, setError.
  js_unfold. simpl.
  destruct sid as [[|c id]|]; simpl.
  - rewrite app_nil_r. repeat split; reflexivity.
  - destruct (delete_session srv sn (String c id)) as [e|[d|e]|b]; simpl;
      repeat split; reflexivity.
  - rewrite app_nil_r. repeat split; reflexivity.
Qed.

End UseSessionFacts.

Module CharacterTableFacts.
Import Api CharacterTable.

(** A failed extraction keeps the list that was displayed and reports the
    error; it still costs exactly one request. *)
Lemma extract_failure_keeps_list srv sid lang w :
  (forall r, get_characters srv (sent w) sid lang <> Ok (Read r)) ->
  characters (state (handleExtractCharacters srv sid lang w).2)
  = characters (state w)
  /\ is_Some (error (state (handleExtractCharacters srv sid lang w).2))
  /\ sent (handleExtractCharacters srv sid lang w).2
     = (sent w ++ [GetCharacters sid lang])%list.
Proof.
  intros Hfail. destruct w as [[ch lg ld er hl] sn lu um]. simpl in *.
  unfold handleExtractCharacters, getCharacters, setIsLoading, setError,
    setLanguage, setCharacters, setHasLoaded. js_unfold. simpl.
  destruct (get_characters srv sn sid lang) as [e|[d|e]|[r|e]]; simpl; eauto.
  exfalso. apply (Hfail r). reflexivity.
Qed.

(** The re-extract button does not look at the character list already
    held: whatever that list is, the handler sends exactly one characters
    request for the current language and completes; when the request
    succeeds the list held is replaced by the fresh result, and when it
    fails the list is kept and an error is shown. *)
Lemma reExtract_one_request (srv : Server) (sid : string)
    (w : World TableState) :
  (reExtract srv sid w).1 = Normal tt
  /\ sent (reExtract srv sid w).2
     = (sent w ++ [GetCharacters sid (language (state w))])%list
  /\ isLoading (state (reExtract srv sid w).2) = false
  /\ language (state (reExtract srv sid w).2) = language (state w)
  /\ (forall result,
        get_characters srv (sent w) sid (language (state w)) = Ok (Read result) ->
        characters (state (reExtract srv sid w).2) = Api.characters result
        /\ hasLoaded (state (reExtract srv sid w).2) = true
        /\ error (state (reExtract srv sid w).2) = None)
  /\ ((forall result,
         get_characters srv (sent w) sid (language (state w)) <> Ok (Read result)) ->
      characters (state (reExtract srv sid w).2) = characters (state w)
      /\ is_Some (error (state (reExtract srv sid w).2))).
Proof.
  destruct w as [[ch lg ld er hl] sn lu um]. simpl.
  unfold reExtract, handleExtractCharacters, getCharacters, setIsLoading,
    setError, setLanguage, setCharacters, setHasLoaded. js_unfold. simpl.
  destruct (get_characters srv sn sid lg) as [e|[d|e]|[r|e]]; simpl;
    repeat split; try reflexivity; eauto;
    match goal with
    | Hok : _ = Ok (Read _) |- _ => inversion Hok; subst; reflexivity
    | Hfail : forall _, _ <> _ |- _ => exfalso; eapply Hfail; reflexivity
    end.
Qed.


End CharacterTableFacts.

Module AudioPlayerFacts.
Import Api AudioPlayer.

Lemma truthy_blob_url (n : nat) : truthy (Some ("blob:" +:+ pretty n)) = true.
Proof. reflexivity. Qed.

(** The guard of [loadAudio]: with the audio of the current page loaded,
    the call returns at once. *)
Lemma loadAudio_hit srv sid page (w : World PlayerState) :
  loadedPageRef (state w) = Some page ->
  truthy (audioUrl (state w)) = true ->
  loadAudio srv sid page w = (Normal tt, w).
Proof.
  intros Hp Hu. destruct w as [s sn lu um]. simpl in *.
  unfold loadAudio. js_unfold. simpl.
  rewrite Hp, Hu. rewrite bool_decide_eq_true_2 by reflexivity. reflexivity.
Qed.

(** A successful load records the page and a truthy object URL. *)
Lemma loadAudio_miss_success srv sid page (w : World PlayerState) blob :
  bool_decide (loadedPageRef (state w) = Some page) && truthy (audioUrl (state w))
  = false ->
  tts_english srv (sent w) sid page = Ok (Read blob) ->
  (loadAudio srv sid page w).1 = Normal tt
  /\ sent (loadAudio srv sid page w).2 = (sent w ++ [GetTTSAudio sid page])%list
  /\ loadedPageRef (state (loadAudio srv sid page w).2) = Some page
  /\ audioUrl (state (loadAudio srv sid page w).2)
     = Some ("blob:" +:+ pretty (urls_made w)).
Proof.
  intros Hmiss Hok. destruct w as [s sn lu um]. simpl in *.
  unfold loadAudio, getTTSAudio, setIsLoading, setError, setIsPlaying,
    setProgress, setAudioUrl, setLoadedPage, pauseAudio. js_unfold. simpl.
  rewrite Hmiss.
  destruct (truthy (audioUrl s)); destruct (audioUrl s);
    destruct (bool_decide (is_Some (audioRef s))); simpl;
    rewrite Hok; simpl; repeat split; reflexivity.
Qed.

(** C4. Repeating the audio request for the page already loaded: after a
    [loadAudio] whose TTS request succeeded, the loaded page is the
    current page and an audio URL is present; a second [loadAudio] for the
    same page, run on that state or on any later state that still holds
    the same loaded page and audio URL (playback may have moved the other
    fields), sends no TTS request and changes nothing, so the loaded audio
    stays as it is. *)
Theorem loadAudio_repeat_sends_nothing (srv : Server) (sid : string)
    (page : Z) (w : World PlayerState) (blob : Blob)
    (w2 : World PlayerState) :
  tts_english srv (sent w) sid page = Ok (Read blob) ->
  let w1 := (loadAudio srv sid page w).2 in
  audioUrl (state w2) = audioUrl (state w1) ->
  loadedPageRef (state w2) = loadedPageRef (state w1) ->
  loadedPageRef (state w1) = Some page
  /\ truthy (audioUrl (state w1)) = true
  /\ loadAudio srv sid page w1 = (Normal tt, w1)
  /\ loadAudio srv sid page w2 = (Normal tt, w2)
  /\ sent (loadAudio srv sid page w2).2 = sent w2
  /\ audioUrl (state (loadAudio srv sid page w2).2) = audioUrl (state w1).
Proof.
  intros Hok w1 Hurl Hpage.
  assert (Hcached : loadedPageRef (state w1) = Some page
                    /\ truthy (audioUrl (state w1)) = true).
  { subst w1.
    destruct (bool_decide (loadedPageRef (state w) = Some page)
              && truthy (audioUrl (state w))) eqn:Hguard.
    - apply andb_true_iff in Hguard as [Hp Hu].
      apply bool_decide_eq_true_1 in Hp.
      rewrite (loadAudio_hit srv sid page w Hp Hu). simpl. auto.
    - destruct (loadAudio_miss_success srv sid page w blob Hguard Hok)
        as (_ & _ & Hp & Hu).
      rewrite Hp, Hu. split; [reflexivity | apply truthy_blob_url]. }
  destruct Hcached as [Hp Hu].
  assert (Hp2 : loadedPageRef (state w2) = Some page) by congruence.
  assert (Hu2 : truthy (audioUrl (state w2)) = true) by congruence.
  rewrite (loadAudio_hit srv sid page w1 Hp Hu).
  rewrite (loadAudio_hit srv sid page w2 Hp2 Hu2). simpl.
  repeat split; assumption || reflexivity.
Qed.

Lemma loadAudio_repeat_sends_nothing_witness :
  loadAudio Scenarios.steady_server "s1" 1
    (loadAudio Scenarios.steady_server "s1" 1 Scenarios.silent_player).2
  = (Normal tt, (loadAudio Scenarios.steady_server "s1" 1 Scenarios.silent_player).2).
Proof.
  destruct (loadAudio_repeat_sends_nothing Scenarios.steady_server "s1" 1
              Scenarios.silent_player
              {| blob_type := "audio/wav"; blob_data := "RIFF" |}
              (loadAudio Scenarios.steady_server "s1" 1 Scenarios.silent_player).2)
    as (_ & _ & _ & Hsecond & _).
  - reflexivity.
  - reflexivity.
  - reflexivity.
  - exact Hsecond.
Defined.

End AudioPlayerFacts.

Module ImageUploaderFacts.
Import Api ImageUploader.

Ltac uploader_unfold :=
  unfold handleFileSelect, removeFile, clearAll, handleUpload, openCamera,
    handleCameraCapture, setSelectedFiles, setPreviews, setIsUploading,
    ImageUploader.setError, setShowCamera in *;
  js_unfold.

Lemma without_index_elem {A} (i : nat) (l : list A) x :
  x ∈ without_index i l -> x ∈ l.
Proof.
  unfold without_index. intros Hx.
  apply list_elem_of_fmap in Hx as ([j y] & -> & Hin).
  apply list_elem_of_filter in Hin as [_ Hin].
  apply elem_of_lookup_imap in Hin as (k & z & Heq & Hk).
  inversion Heq; subst. simpl. eapply list_elem_of_lookup_2, Hk.
Qed.

Lemma without_index_length {A} (i : nat) (l : list A) :
  (length (without_index i l) <= length l)%nat.
Proof.
  unfold without_index. rewrite length_fmap.
  etransitivity; [apply length_filter|]. rewrite length_imap. reflexivity.
Qed.

Lemma revokeAll_state urls (w : World UploaderState) :
  (revokeAll urls w).1 = Normal tt
  /\ state (revokeAll urls w).2 = state w
  /\ sent (revokeAll urls w).2 = sent w.
Proof.
  revert w. induction urls as [|u urls IH]; intros w; simpl.
  - auto.
  - js_unfold. simpl.
    specialize (IH {| state := state w; sent := sent w;
                      live_urls := filter (fun u0 => u0 ≠ u) (live_urls w);
                      urls_made := urls_made w |}).
    exact IH.
Qed.

Section Selection.
Context (maxFiles : Z).

Lemma handleFileSelect_refuses file rest w :
  refused maxFiles file w ->
  (handleFileSelect maxFiles (Some (file :: rest)) w).1 = Normal tt
  /\ rejected_with_error w (handleFileSelect maxFiles (Some (file :: rest)) w).2
  /\ previews (state (handleFileSelect maxFiles (Some (file :: rest)) w).2)
     = previews (state w)
  /\ sent (handleFileSelect maxFiles (Some (file :: rest)) w).2 = sent w.
Proof.
  intros Href. destruct w as [[sf pv iu er sc] sn lu um].
  unfold refused, rejected_with_error in *. simpl in *.
  uploader_unfold. simpl.
  destruct (decide (file_type file ∈ allowedTypes)) as [Hty|Hty].
  - rewrite (bool_decide_eq_true_2 _ Hty). simpl.
    destruct (Z.gtb_spec (file_size file) MAX_FILE_SIZE) as [Hsz|Hsz]; simpl.
    + repeat split; eauto.
    + destruct (Z.geb_spec (Z.of_nat (length sf)) maxFiles) as [Hn|Hn]; simpl.
      * repeat split; eauto.
      * exfalso. destruct Href as [H|[H|H]]; [tauto | lia | lia].
  - rewrite (bool_decide_eq_false_2 _ Hty). simpl. repeat split; eauto.
Qed.

Lemma handleFileSelect_accepts file rest w :
  ¬ refused maxFiles file w ->
  selectedFiles (state (handleFileSelect maxFiles (Some (file :: rest)) w).2)
  = (selectedFiles (state w) ++ [file])%list
  /\ error (state (handleFileSelect maxFiles (Some (file :: rest)) w).2) = None.
Proof.
  intros Hacc. destruct w as [[sf pv iu er sc] sn lu um].
  unfold refused in *. simpl in *.
  uploader_unfold. simpl.
  destruct (decide (file_type file ∈ allowedTypes)) as [Hty|Hty]; [|tauto].
  rewrite (bool_decide_eq_true_2 _ Hty). simpl.
  destruct (Z.gtb_spec (file_size file) MAX_FILE_SIZE) as [Hsz|Hsz];
    [exfalso; apply Hacc; right; left; lia|]. simpl.
  destruct (Z.geb_spec (Z.of_nat (length sf)) maxFiles) as [Hn|Hn];
    [exfalso; apply Hacc; right; right; lia|]. simpl.
  auto.
Qed.

Lemma handle_well_formed ev w :
  well_formed maxFiles w -> well_formed maxFiles (handle maxFiles ev w).2.
Proof.
  intros [Hall Hlen]. destruct ev as [[[|file rest]|]|i|]; cbn [handle].
  - split; assumption.
  - destruct (decide (file_type file ∈ allowedTypes)) as [Hty|Hty].
    + destruct (Z.gtb_spec (file_size file) MAX_FILE_SIZE) as [Hsz|Hsz].
      * destruct (handleFileSelect_refuses file rest w) as (_ & [_ Heq] & _).
        { right; left; lia. }
        unfold well_formed. rewrite Heq. split; assumption.
      * destruct (Z.geb_spec (Z.of_nat (length (selectedFiles (state w)))) maxFiles)
          as [Hn|Hn].
        -- destruct (handleFileSelect_refuses file rest w) as (_ & [_ Heq] & _).
           { right; right; lia. }
           unfold well_formed. rewrite Heq. split; assumption.
        -- destruct (handleFileSelect_accepts file rest w) as [Heq _].
           { unfold refused. intros [H|[H|H]]; [tauto | lia | lia]. }
           unfold well_formed. rewrite Heq. split.
           ++ apply Forall_app. split; [assumption|].
              constructor; [|constructor]. split; [assumption | lia].
           ++ rewrite length_app. simpl. lia.
    + destruct (handleFileSelect_refuses file rest w) as (_ & [_ Heq] & _).
      { left. assumption. }
      unfold well_formed. rewrite Heq. split; assumption.
  - split; assumption.
  - destruct w as [[sf pv iu er sc] sn lu um].
    unfold well_formed in *. simpl in *. uploader_unfold. simpl.
    destruct (pv !! i); simpl.
    + split.
      * apply Forall_forall. intros x Hx.
        eapply Forall_forall in Hall; [exact Hall|]. eapply without_index_elem, Hx.
      * pose proof (without_index_length i sf). lia.
    + split.
      * apply Forall_forall. intros x Hx.
        eapply Forall_forall in Hall; [exact Hall|]. eapply without_index_elem, Hx.
      * pose proof (without_index_length i sf). lia.
  - destruct w as [[sf pv iu er sc] sn lu um].
    unfold well_formed in *. simpl in *. uploader_unfold. simpl.
    destruct (revokeAll_state pv
                {| state := {| selectedFiles := sf; previews := pv;
                               isUploading := iu; error := er; showCamera := sc |};
                   sent := sn; live_urls := lu; urls_made := um |})
      as (Hr & Hs & _).
    destruct (revokeAll pv _) as [r w'] eqn:E. simpl in *. subst r. simpl.
    split; [constructor | lia].
Qed.

Lemma run_well_formed evs : forall w,
  well_formed maxFiles w -> well_formed maxFiles (run maxFiles w evs).
Proof.
  induction evs as [|ev evs IH]; intros w Hw; [exact Hw|].
  simpl. apply IH, handle_well_formed, Hw.
Qed.

(** With nothing selected [handleUpload] returns at once: [onUpload] is
    not called, nothing is sent, and no error is set. *)
Lemma handleUpload_empty
    (onUpload : list File -> Js (World UploaderState) unit) w :
  selectedFiles (state w) = [] ->
  handleUpload onUpload w = (Normal tt, w).
Proof.
  intros Hnil. destruct w as [[sf pv iu er sc] sn lu um]. simpl in *. subst sf.
  uploader_unfold. simpl. reflexivity.
Qed.

End Selection.

End ImageUploaderFacts.

Module SessionStoreFacts.
Import SessionStore.

Lemma lookup_delete_store id id' st :
  sessions (delete id st) !! id'
  = if decide (id = id') then None else sessions st !! id'.
Proof. unfold delete. simpl. apply lookup_delete. Qed.

Lemma foldr_delete_lookup ids : forall st id,
  sessions (foldr delete st ids) !! id
  = if decide (id ∈ ids) then None else sessions st !! id.
Proof.
  induction ids as [|i ids IH]; intros st id; cbn [foldr].
  - destruct (decide (id ∈ [])) as [Hin|_]; [|reflexivity].
    apply elem_of_nil in Hin. contradiction.
  - rewrite lookup_delete_store, IH.
    destruct (decide (i = id)) as [->|Hne].
    + rewrite decide_True by (left; reflexivity). reflexivity.
    + destruct (decide (id ∈ ids)) as [Hin|Hnin].
      * rewrite decide_True by (right; assumption). reflexivity.
      * rewrite decide_False; [reflexivity|].
        intros Hin. apply elem_of_cons in Hin as [->|Hin]; contradiction.
Qed.

Lemma foldr_delete_next_id ids : forall st,
  next_id (foldr delete st ids) = next_id st.
Proof. induction ids as [|i ids IH]; intros st; simpl; auto. Qed.

Lemma elem_of_expired now st id :
  id ∈ expired now st
  <-> exists s, sessions st !! id = Some s /\ expiresAt s <= now.
Proof.
  unfold expired. rewrite list_elem_of_fmap. split.
  - intros ([i s] & -> & Hin). apply list_elem_of_filter in Hin as [Hexp Hin].
    apply elem_of_map_to_list in Hin. exists s. auto.
  - intros (s & Hs & Hexp). exists (id, s). split; [reflexivity|].
    apply list_elem_of_filter. split; [exact Hexp|].
    apply elem_of_map_to_list. exact Hs.
Qed.

(** A reaper tick removes exactly the sessions that have expired. *)
Lemma reap_lookup now st id :
  sessions (reap now st) !! id
  = match sessions st !! id with
    | Some s => if decide (expiresAt s <= now) then None else Some s
    | None => None
    end.
Proof.
  unfold reap. rewrite foldr_delete_lookup.
  destruct (decide (id ∈ expired now st)) as [Hin|Hnin].
  - apply elem_of_expired in Hin as (s & Hs & Hexp). rewrite Hs.
    rewrite decide_True by assumption. reflexivity.
  - destruct (sessions st !! id) as [s|] eqn:Hs; [|reflexivity].
    destruct (decide (expiresAt s <= now)) as [Hexp|Hexp]; [|reflexivity].
    exfalso. apply Hnin, elem_of_expired. eauto.
Qed.

(** A read gives the same answer whether or not the reaper has run
    before it. *)
Lemma get_after_reap tick now id st :
  tick <= now -> get now id (reap tick st) = get now id st.
Proof.
  intros Htick. unfold get. rewrite reap_lookup.
  destruct (sessions st !! id) as [s|]; [|reflexivity].
  destruct (decide (expiresAt s <= tick)) as [Hexp|Hexp]; [|reflexivity].
  destruct (Z.ltb_spec now (expiresAt s)); [lia | reflexivity].
Qed.

Lemma get_Found now id st s :
  get now id st = Found s <-> sessions st !! id = Some s /\ now < expiresAt s.
Proof.
  unfold get. destruct (sessions st !! id) as [s'|].
  - destruct (Z.ltb_spec now (expiresAt s')); split.
    + intros [= ->]. auto.
    + intros [[= ->] _]. reflexivity.
    + intros [=].
    + intros [[= ->] ?]. lia.
  - split; [intros [=] | intros [[=] _]].
Qed.

Lemma get_expired now id st s :
  sessions st !! id = Some s -> expiresAt s <= now -> get now id st = NotFound.
Proof.
  intros Hs Hexp. unfold get. rewrite Hs.
  destruct (Z.ltb_spec now (expiresAt s)); [lia | reflexivity].
Qed.

(** Deleting is idempotent and harmless on an id that is not there. *)
Lemma delete_idempotent id st : delete id (delete id st) = delete id st.
Proof. unfold delete. simpl. f_equal. apply delete_delete_eq. Qed.

Lemma delete_absent id st :
  sessions st !! id = None -> delete id st = st.
Proof.
  intros Hnone. destruct st as [m n]. unfold delete. simpl in *. f_equal.
  apply delete_id. exact Hnone.
Qed.

Lemma get_after_delete now id st : get now id (delete id st) = NotFound.
Proof. unfold get. rewrite lookup_delete_store, decide_True; reflexivity. Qed.

Section Tracked.
Context (id : nat) (t0 : Z) (pgs : list PageRecord) (now : Z).

Lemma apply_tracked st e :
  e.1 <= now -> e.2 <> Delete id ->
  tracked id t0 pgs now st -> tracked id t0 pgs now (apply st e).
Proof.
  intros Hle Hne (Hid & Hfix & Hlive). destruct e as [t o]. simpl in *.
  unfold tracked, apply. simpl. destruct o as [pages|id' key value|id'|].
  - (* Create: the new session gets a different id *)
    unfold create. simpl. split; [lia|]. split.
    + intros s Hs. rewrite lookup_insert_ne in Hs by lia. apply (Hfix s Hs).
    + intros Hnow. rewrite lookup_insert_ne by lia. auto.
  - (* PutCache: only the cache of the session changes *)
    unfold putCache.
    destruct (get t id' st) as [s'|] eqn:Hget; [|split; [|split]; assumption].
    apply get_Found in Hget as [Hs' _]. simpl. split; [exact Hid|].
    destruct (decide (id' = id)) as [->|Hneq].
    + specialize (Hfix s' Hs'). split.
      * intros s Hs. rewrite lookup_insert_eq in Hs. inversion Hs; subst.
        simpl. exact Hfix.
      * intros _. rewrite lookup_insert_eq. eauto.
    + split.
      * intros s Hs. rewrite lookup_insert_ne in Hs by assumption.
        apply (Hfix s Hs).
      * intros Hnow. rewrite lookup_insert_ne by assumption. auto.
  - (* Delete of another session *)
    assert (Hneq : id' <> id) by congruence.
    split; [exact Hid|]. split.
    + intros s Hs. rewrite lookup_delete_store, decide_False in Hs by assumption.
      apply (Hfix s Hs).
    + intros Hnow. rewrite lookup_delete_store, decide_False by assumption. auto.
  - (* ReaperTick: it runs no later than [now] *)
    split; [|split].
    + unfold reap. rewrite foldr_delete_next_id. exact Hid.
    + intros s Hs. rewrite reap_lookup in Hs.
      destruct (sessions st !! id) as [s0|] eqn:Hs0; [|discriminate].
      destruct (decide (expiresAt s0 <= t)); [discriminate|].
      inversion Hs; subst. apply (Hfix s eq_refl).
    + intros Hnow. rewrite reap_lookup.
      destruct (Hlive Hnow) as [s0 Hs]. rewrite Hs.
      destruct (Hfix s0 Hs) as (_ & Hexp & _).
      rewrite decide_False by lia. eauto.
Qed.

Lemma run_tracked history : forall st,
  Forall (fun e => e.1 <= now) history ->
  Forall (fun e => e.2 <> Delete id) history ->
  tracked id t0 pgs now st -> tracked id t0 pgs now (run st history).
Proof.
  induction history as [|e history IH]; intros st Htime Hdel Htr; [exact Htr|].
  inversion Htime; subst. inversion Hdel; subst.
  simpl. apply IH; [assumption | assumption |].
  apply apply_tracked; assumption.
Qed.

End Tracked.

Lemma create_tracked t0 pgs now st0 :
  tracked (create t0 pgs st0).1 t0 pgs now (create t0 pgs st0).2.
Proof.
  unfold tracked, create. simpl. split; [lia|]. split.
  - intros s Hs. rewrite lookup_insert_eq in Hs. inversion Hs; subst.
    simpl. auto.
  - intros _. rewrite lookup_insert_eq. eauto.
Qed.

(** C1. A session created at [t0] is readable exactly while
    [now < expiresAt = t0 + TTL]: whatever operations ran up to [now]
    short of deleting it (other sessions created or deleted, cache writes,
    reaper ticks or none at all), [get] at a time [now >= expiresAt]
    returns NotFound and so does every cache read, and [get] before that
    returns the session as it was created; more generally a read of any stored session past its expiry
    returns NotFound, and whatever a read returns is a stored, unexpired
    session. *)
Theorem get_after_expiry_is_NotFound (st0 : Store) (t0 : Z)
    (pgs : list PageRecord) (history : list (Z * op)) (now : Z) :
  let id := (create t0 pgs st0).1 in
  let st := run (create t0 pgs st0).2 history in
  Forall (fun e => e.1 <= now) history ->
  Forall (fun e => e.2 <> Delete id) history ->
  (t0 + TTL <= now ->
   get now id st = NotFound
   /\ forall key, getCache now id key st = SessionNotFound)
  /\ (now < t0 + TTL ->
      exists s, get now id st = Found s
                /\ createdAt s = t0 /\ expiresAt s = t0 + TTL /\ pages s = pgs)
  /\ (forall id' s', sessions st !! id' = Some s' -> expiresAt s' <= now ->
                     get now id' st = NotFound
                     /\ forall tick, tick <= now ->
                                     get now id' (reap tick st) = NotFound)
  /\ (forall id' s', get now id' st = Found s' ->
                     sessions st !! id' = Some s' /\ now < expiresAt s').
Proof.
  intros id st Htime Hdel.
  pose proof (run_tracked id t0 pgs now history _ Htime Hdel
                (create_tracked t0 pgs now st0)) as (_ & Hfix & Hlive).
  fold st in Hfix, Hlive.
  split; [|split; [|split]].
  - intros Hexp.
    assert (Hget : get now id st = NotFound).
    { unfold get.
      destruct (sessions st !! id) as [s|] eqn:Hs; [|reflexivity].
      destruct (Hfix s eq_refl) as (_ & He & _).
      destruct (Z.ltb_spec now (expiresAt s)); [lia | reflexivity]. }
    split; [exact Hget|]. intros key. unfold getCache. rewrite Hget. reflexivity.
  - intros Hnow. destruct (Hlive Hnow) as [s Hs].
    destruct (Hfix s Hs) as (Hc & He & Hp).
    exists s. split; [|auto]. apply get_Found. split; [exact Hs | lia].
  - intros id' s' Hs' Hexp. split.
    + apply (get_expired now id' st s' Hs' Hexp).
    + intros tick Htick. rewrite get_after_reap by assumption.
      apply (get_expired now id' st s' Hs' Hexp).
  - intros id' s' Hget. apply get_Found. exact Hget.
Qed.

Lemma get_after_expiry_is_NotFound_witness :
  get 3600 0%nat (run (create 0 Scenarios.one_page empty).2 Scenarios.busy_history)
  = NotFound.
Proof.
  refine (proj1 (proj1 (get_after_expiry_is_NotFound empty 0 Scenarios.one_page
                          Scenarios.busy_history 3600 _ _) _)).
  - repeat constructor; simpl; lia.
  - repeat constructor; simpl; discriminate.
  - unfold TTL. lia.
Defined.

End SessionStoreFacts.

Module RequestGateFacts.
Import RequestGate.

Section Gate.
Context {Key Caller Value Error : Type} `{Countable Key}.
Local Abbreviation Gate := (@Gate Key Caller Value Error _ _).
Local Abbreviation event := (@event Key Caller Value Error).
Local Abbreviation Outcome := (@Outcome Value Error).

Lemma deliveries_app (k : Key) (g : Gate) m iv
    (ds : list (Caller * Key * Outcome)) :
  deliveries k {| inflight := m; invoked := iv;
                  delivered := delivered g ++ ds |}
  = (deliveries k g
     ++ ((fun d => (d.1.1, d.2)) <$> filter (fun d => d.1.2 = k) ds))%list.
Proof. unfold deliveries. simpl. rewrite filter_app, fmap_app. reflexivity. Qed.

Lemma filter_delivered_same (k : Key) (o : Outcome) (ws : list Caller) :
  (fun d : Caller * Key * Outcome => (d.1.1, d.2))
    <$> filter (fun d => d.1.2 = k) (map (fun c => (c, k, o)) ws)
  = map (fun c => (c, o)) ws.
Proof.
  induction ws as [|c ws IH]; [reflexivity|].
  simpl. rewrite filter_cons_True by reflexivity. simpl. f_equal. exact IH.
Qed.

Lemma filter_delivered_other (k k' : Key) (o : Outcome) (ws : list Caller) :
  k' <> k ->
  filter (fun d : Caller * Key * Outcome => d.1.2 = k)
         (map (fun c => (c, k', o)) ws) = [].
Proof.
  intros Hne. induction ws as [|c ws IH]; [reflexivity|].
  simpl. rewrite filter_cons_False by (simpl; exact Hne). exact IH.
Qed.

(** An event about another key leaves the view of [k] alone; an event
    about [k] acts on it as [view_step]. *)
Lemma view_after_step (k : Key) (g : Gate) (e : event) :
  view k (step g e)
  = if decide (key_of e = k) then view_step (view k g) e else view k g.
Proof.
  destruct e as [c k'|k' o]; simpl; unfold view, run, complete, invocations.
  - destruct (decide (k' = k)) as [->|Hne].
    + destruct (inflight g !! k) as [ws|] eqn:Hk; simpl.
      * rewrite lookup_insert_eq. reflexivity.
      * rewrite lookup_insert_eq, filter_app, length_app.
        rewrite filter_cons_True by reflexivity. simpl.
        f_equal. f_equal. lia.
    + destruct (inflight g !! k') as [ws|] eqn:Hk; simpl.
      * rewrite lookup_insert_ne by assumption. reflexivity.
      * rewrite lookup_insert_ne by assumption.
        rewrite filter_app, filter_cons_False by assumption.
        rewrite app_nil_r. reflexivity.
  - destruct (decide (k' = k)) as [->|Hne].
    + destruct (inflight g !! k) as [ws|] eqn:Hk; simpl.
      * rewrite lookup_delete_eq, deliveries_app, filter_delivered_same.
        reflexivity.
      * rewrite Hk. reflexivity.
    + destruct (inflight g !! k') as [ws|] eqn:Hk; simpl.
      * rewrite lookup_delete_ne by assumption.
        rewrite deliveries_app, filter_delivered_other by assumption.
        simpl. rewrite app_nil_r. reflexivity.
      * reflexivity.
Qed.

(** Keys are independent: the view of [k] after a trace is determined by
    the events of the trace that are about [k]. *)
Lemma view_after_exec (k : Key) (trace : list event) : forall g : Gate,
  view k (exec g trace)
  = fold_left view_step (filter (fun e => key_of e = k) trace) (view k g).
Proof.
  induction trace as [|e trace IH]; intros g; [reflexivity|].
  simpl. rewrite IH, view_after_step.
  destruct (decide (key_of e = k)) as [He|He].
  - rewrite filter_cons_True by assumption. reflexivity.
  - rewrite filter_cons_False by assumption. reflexivity.
Qed.

(** Callers arriving while the invocation is in flight attach to it. *)
Lemma attach_all (k : Key) (cs : list Caller) : forall ws n ds,
  fold_left view_step (map (fun c => Call c k : event) cs) (Some ws, n, ds)
  = (Some (ws ++ cs)%list, n, ds).
Proof.
  induction cs as [|c cs IH]; intros ws n ds; simpl.
  - rewrite app_nil_r. reflexivity.
  - rewrite IH, <- app_assoc. reflexivity.
Qed.

End Gate.

(** C2. [N >= 1] callers ([c] and those of [cs]) request the same key [k]
    while one invocation is in flight, in a trace where events about other
    keys may be interleaved at will, and the invocation then completes
    with outcome [o] (a value or an error): exactly one adapter invocation
    was started for [k], the [N] callers all received that same outcome,
    the registration of [k] is cleared, and the next call on [k] starts a
    fresh invocation. *)
Theorem identical_calls_invoke_once {Key Caller Value Error : Type}
    `{Countable Key} (g : @Gate Key Caller Value Error _ _) (k : Key)
    (c : Caller) (cs : list Caller) (o : @Outcome Value Error)
    (trace : list (@event Key Caller Value Error)) (late : Caller) :
  inflight g !! k = None ->
  filter (fun e => key_of e = k) trace
  = (map (fun c' => Call c' k) (c :: cs) ++ [Complete k o])%list ->
  let g' := exec g trace in
  invocations k g' = S (invocations k g)
  /\ deliveries k g' = (deliveries k g ++ map (fun c' => (c', o)) (c :: cs))%list
  /\ inflight g' !! k = None
  /\ invocations k (run late k g') = S (S (invocations k g))
  /\ inflight (run late k g') !! k = Some [late].
Proof.
  intros Hidle Htrace g'.
  assert (Hview : view k g'
                  = (None, S (invocations k g),
                     (deliveries k g ++ map (fun c' => (c', o)) (c :: cs))%list)).
  { subst g'. rewrite view_after_exec, Htrace, fold_left_app.
    unfold view at 1. rewrite Hidle. simpl.
    rewrite attach_all. reflexivity. }
  unfold view in Hview. injection Hview as Hin Hinv Hdel.
  split; [exact Hinv|]. split; [exact Hdel|]. split; [exact Hin|].
  pose proof (view_after_step k g' (Call late k)) as Hlate.
  rewrite decide_True in Hlate by reflexivity.
  unfold view in Hlate. rewrite Hin, Hinv in Hlate. simpl in Hlate.
  injection Hlate as Hin' Hinv' _.
  split; assumption.
Qed.

Lemma identical_calls_invoke_once_witness :
  invocations (7%nat, 1) (exec idle Scenarios.translate_trace) = 1%nat
  /\ deliveries (7%nat, 1) (exec idle Scenarios.translate_trace)
     = [(10%nat, Success "okappudu"); (11%nat, Success "okappudu");
        (12%nat, Success "okappudu")].
Proof.
  destruct (identical_calls_invoke_once idle (7%nat, 1) 10%nat [11%nat; 12%nat]
              (Success "okappudu") Scenarios.translate_trace 13%nat)
    as (Hinv & Hdel & _).
  - reflexivity.
  - vm_compute. reflexivity.
  - split; [exact Hinv | exact Hdel].
Defined.

End RequestGateFacts.

Module OrchestratorFacts.
Import Api SessionStore Orchestrator.

Section Gate.
Context (caller : nat) (k : DedupKey) (outcome : Outcome) (g : Gate).
Hypothesis not_in_flight : RequestGate.inflight g !! k = None.

(** A call that finds nothing in flight for its key starts one adapter
    invocation; when that returns, the caller is served and the
    registration is gone. *)
Lemma run_complete_alone :
  RequestGate.invocations k (RequestGate.complete k outcome (RequestGate.run caller k g))
  = S (RequestGate.invocations k g)
  /\ RequestGate.inflight (RequestGate.complete k outcome (RequestGate.run caller k g))
     !! k = None
  /\ RequestGate.deliveries k (RequestGate.complete k outcome (RequestGate.run caller k g))
     = (RequestGate.deliveries k g ++ [(caller, outcome)])%list.
Proof.
  unfold RequestGate.run. rewrite not_in_flight.
  unfold RequestGate.complete. cbn [RequestGate.inflight].
  assert (Hregistered : <[k := [caller]]> (RequestGate.inflight g) !! k
                        = Some [caller]) by apply lookup_insert_eq.
  rewrite Hregistered.
  unfold RequestGate.invocations, RequestGate.deliveries.
  cbn [RequestGate.inflight RequestGate.invoked RequestGate.delivered].
  split; [|split].
  - rewrite filter_app, length_app.
    rewrite (filter_cons_True _ k []) by reflexivity. simpl. lia.
  - apply lookup_delete_eq.
  - rewrite filter_app, fmap_app. simpl.
    rewrite (filter_cons_True _ (caller, k, outcome) []) by reflexivity.
    reflexivity.
Qed.

End Gate.

(** A cache write on a live session is read back, whatever was cached
    under that key before. *)
Lemma getCache_putCache now id key value st s :
  get now id st = Found s ->
  exists st', putCache now id key value st = Some st'
              /\ getCache now id key st' = Hit value.
Proof.
  intros Hget. unfold putCache. rewrite Hget. eexists. split; [reflexivity|].
  apply SessionStoreFacts.get_Found in Hget as [_ Hlive].
  unfold getCache, get. cbn [sessions]. rewrite lookup_insert_eq.
  cbn [expiresAt stageCache].
  destruct (Z.ltb_spec now (expiresAt s)); [|lia].
  cbn [stageCache]. rewrite lookup_insert_eq. reflexivity.
Qed.

Lemma get_earlier arrive finish id st s :
  arrive <= finish -> get finish id st = Found s -> get arrive id st = Found s.
Proof.
  intros Hle Hget. apply SessionStoreFacts.get_Found in Hget as [Hs Hlive].
  apply SessionStoreFacts.get_Found. split; [exact Hs | lia].
Qed.

(** C7. A re-generate request for Characters, on a session that is live
    until the adapter returns and with no invocation in flight for its
    key: whatever is cached under [("characters", language)], one adapter
    invocation is started, the caller receives its outcome and the
    registration is cleared; a plain request would have been answered
    from the cache.  On success the value computed is what the cache
    then holds under that key and, the response being that value, the
    character list displayed by the table after its re-extract button is
    the fresh one.  On failure nothing is cached, and the table keeps its
    list and shows an error.  The button sends exactly one request. *)
Theorem regenerate_characters_overwrites
    (decode : string -> CharactersResponse) (srv : Server) (sid : string)
    (w : World CharacterTable.TableState) (core : Core) (session caller : nat)
    (arrive finish : Z) (outcome : Outcome) (s : Session) :
  let key := charactersKey (CharacterTable.language (state w)) in
  let served := regenerate arrive finish caller session key outcome core in
  let shown := (CharacterTable.reExtract srv sid w).2 in
  arrive <= finish ->
  get finish session (store core) = Found s ->
  RequestGate.inflight (gate core) !! (session, key) = None ->
  responds decode served.1
           (get_characters srv (sent w) sid (CharacterTable.language (state w))) ->
  RequestGate.invocations (session, key) (gate served.2)
  = S (RequestGate.invocations (session, key) (gate core))
  /\ RequestGate.inflight (gate served.2) !! (session, key) = None
  /\ RequestGate.deliveries (session, key) (gate served.2)
     = (RequestGate.deliveries (session, key) (gate core) ++ [(caller, outcome)])%list
  /\ (forall old, getCache arrive session key (store core) = Hit old ->
        getOrCompute arrive finish caller session key outcome core
        = (Computed old, core))
  /\ (forall value, outcome = RequestGate.Success value ->
        served.1 = Computed value
        /\ getCache finish session key (store served.2) = Hit value
        /\ CharacterTable.characters (state shown) = Api.characters (decode value)
        /\ CharacterTable.hasLoaded (state shown) = true
        /\ CharacterTable.error (state shown) = None)
  /\ (forall e, outcome = RequestGate.Failure e ->
        served.1 = UpstreamError e
        /\ store served.2 = store core
        /\ CharacterTable.characters (state shown)
           = CharacterTable.characters (state w)
        /\ is_Some (CharacterTable.error (state shown)))
  /\ (CharacterTable.reExtract srv sid w).1 = Normal tt
  /\ sent shown
     = (sent w ++ [GetCharacters sid (CharacterTable.language (state w))])%list.
Proof.
  intros key served shown Hle Hlive Hidle Hreply.
  pose proof (get_earlier arrive finish session (store core) s Hle Hlive) as Harrive.
  destruct (run_complete_alone caller (session, key) outcome (gate core) Hidle)
    as (Hcount & Hclear & Hserved).
  destruct (CharacterTableFacts.reExtract_one_request srv sid w)
    as (Hdone & Hsent & _ & _ & Hfresh & Hkept).
  assert (Hgate : gate served.2
                  = RequestGate.complete (session, key) outcome
                      (RequestGate.run caller (session, key) (gate core))).
  { unfold served, regenerate. rewrite Harrive. unfold throughGate.
    destruct outcome; reflexivity. }
  rewrite Hgate.
  split; [exact Hcount|]. split; [exact Hclear|]. split; [exact Hserved|].
  split; [|split; [|split; [|split; [exact Hdone | exact Hsent]]]].
  - intros old Hold. unfold getOrCompute. rewrite Harrive, Hold. reflexivity.
  - intros value ->.
    destruct (getCache_putCache finish session key value (store core) s Hlive)
      as (st' & Hput & Hread).
    assert (Hres : served = (Computed value, {| store := st'; gate := gate served.2 |})).
    { unfold served, regenerate. rewrite Harrive. unfold throughGate.
      rewrite Hput. reflexivity. }
    unfold served in Hreply. unfold regenerate in Hreply.
    rewrite Harrive in Hreply. cbn [throughGate fst responds] in Hreply.
    destruct (Hfresh (decode value) Hreply) as (Hchars & Hloaded & Herr).
    rewrite Hres. cbn [fst snd store].
    split; [reflexivity|]. split; [exact Hread|]. auto.
  - intros e ->.
    unfold served in Hreply |- *. unfold regenerate in Hreply |- *.
    rewrite Harrive in Hreply |- *. cbn [throughGate fst snd store responds] in Hreply |- *.
    destruct Hreply as [error Hreply].
    destruct Hkept as [Hchars Herr].
    { intros result Hok. rewrite Hreply in Hok. discriminate. }
    split; [reflexivity|]. split; [reflexivity|]. auto.
Qed.

Lemma regenerate_characters_overwrites_witness :
  getOrCompute 100 160 7 0 (charactersKey english)
    (RequestGate.Success "Cinderella") Scenarios.stale_core
  = (Computed "Old", Scenarios.stale_core)
  /\ getCache 160 0 (charactersKey english)
       (store (regenerate 100 160 7 0 (charactersKey english)
                 (RequestGate.Success "Cinderella") Scenarios.stale_core).2)
     = Hit "Cinderella"
  /\ CharacterTable.characters
       (state (CharacterTable.reExtract Scenarios.steady_server "s1"
                 Scenarios.stale_table).2)
     = [Scenarios.cinderella].
Proof.
  destruct (regenerate_characters_overwrites Scenarios.read_characters
              Scenarios.steady_server "s1" Scenarios.stale_table
              Scenarios.stale_core 0 7 100 160 (RequestGate.Success "Cinderella")
              {| id := 0; createdAt := 0; expiresAt := 3600;
                 pages := Scenarios.one_page;
                 stageCache := {[ charactersKey english := "Old" ]} |})
    as (_ & _ & _ & Hplain & Hfresh & _).
  - lia.
  - vm_compute. reflexivity.
  - vm_compute. reflexivity.
  - vm_compute. reflexivity.
  - destruct (Hfresh "Cinderella" eq_refl) as (_ & Hcache & Hchars & _).
    split; [|split; [exact Hcache | exact Hchars]].
    apply (Hplain "Old"). vm_compute. reflexivity.
Defined.

End OrchestratorFacts.

(** * Further properties of the front end *)

Module KeyboardShortcutsFacts.
Import KeyboardShortcuts.

Lemma handleKeyDown_typing event : typing event -> handleKeyDown event = None.
Proof.
  intros Htyping. unfold handleKeyDown.
  destruct Htyping as [Htag|[Htag|Hedit]].
  - rewrite (bool_decide_eq_true_2 _ Htag). reflexivity.
  - rewrite (bool_decide_eq_true_2 _ Htag). rewrite orb_true_r. reflexivity.
  - rewrite Hedit. rewrite orb_true_r. reflexivity.
Qed.

Lemma handleKeyDown_page event :
  (handleKeyDown event = Some onNextPage -> key event = "ArrowDown")
  /\ (handleKeyDown event = Some onPrevPage -> key event = "ArrowUp").
Proof.
  unfold handleKeyDown.
  destruct (bool_decide (tagName event = "INPUT")
            || bool_decide (tagName event = "TEXTAREA")
            || isContentEditable event); [split; discriminate|].
  repeat case_bool_decide; split; congruence.
Qed.

End KeyboardShortcutsFacts.

Module HomeFacts.
Import Api Compose UseSession Home.

Ltac home_unfold :=
  unfold handleUpload, handleNewSession, with_session, setCurrentPage, zoom,
    upload, clearSession, uploadImages, getPages, deleteSession,
    UseSession.setIsLoading, UseSession.setError, setSessionId, setPages in *;
  js_unfold.

Lemma onKeyDown_session captured h event :
  session (onKeyDown captured h event) = session h.
Proof.
  unfold onKeyDown. destruct (shortcutsEnabled captured); [|reflexivity].
  destruct (KeyboardShortcuts.handleKeyDown event) as [[]|]; reflexivity.
Qed.

(** A key press handled by the listener of the render of the state
    itself. *)
Lemma onKeyDown_valid h event :
  Navigation.valid (nav h) -> Navigation.valid (nav (onKeyDown h h event)).
Proof.
  intros Hv. unfold onKeyDown. destruct (shortcutsEnabled h); [|exact Hv].
  destruct (KeyboardShortcuts.handleKeyDown event) as [[]|]; try exact Hv.
  - apply (NavigationFacts.step_valid (nav h) Navigation.KeyNext Hv).
  - apply (NavigationFacts.step_valid (nav h) Navigation.KeyPrev Hv).
Qed.

Lemma pressed_valid events : forall h,
  Navigation.valid (nav h) ->
  Navigation.valid (nav (latest (happenings (display h) (pressed events))))
  /\ session (latest (happenings (display h) (pressed events))) = session h.
Proof.
  induction events as [|e events IH]; intros h Hv; [split; [exact Hv | reflexivity]|].
  change (happenings (display h) (pressed (e :: events)))
    with (happenings (display (onKeyDown h h e)) (pressed events)).
  destruct (IH (onKeyDown h h e) (onKeyDown_valid h e Hv)) as [Hvalid Hsession].
  split; [exact Hvalid|]. rewrite Hsession. apply onKeyDown_session.
Qed.

(** With the shortcuts off in the latest state and in the render whose
    listener would be installed, nothing that happens changes the state. *)
Lemma happenings_disabled xs : forall m,
  shortcutsEnabled (latest m) = false ->
  shortcutsEnabled (rendered m) = false ->
  latest (happenings m xs) = latest m.
Proof.
  induction xs as [|x xs IH]; intros m Hlatest Hrendered; [reflexivity|].
  simpl. destruct x as [e|].
  - assert (Hsame : happen m (KeyDown e) = m).
    { destruct m as [l r]. simpl in *. unfold onKeyDown.
      rewrite Hrendered. reflexivity. }
    rewrite Hsame. apply IH; assumption.
  - rewrite IH; [reflexivity | exact Hlatest | exact Hlatest].
Qed.

(** X1. Keyboard navigation: from a current page within
    [1, pages.length], key presses between which [Home] renders again
    leave the current page within that range and the session untouched;
    whichever render installed the listener, a key pressed while typing
    in an input, a textarea or an editable element does nothing, and only
    ArrowDown and ArrowUp can move the page (ArrowRight and ArrowLeft
    never do).  Two ArrowDown presses that reach the listener of one
    render both pass its guard: from a page below the last one they move
    two pages on, past the last page when started from the last but one. *)
Theorem keys_navigate_within_range (h : HomeState)
    (events : list KeyboardShortcuts.KeyboardEvent) :
  Navigation.valid (nav h) ->
  Navigation.valid (nav (latest (happenings (display h) (pressed events))))
  /\ session (latest (happenings (display h) (pressed events))) = session h
  /\ (forall captured e, KeyboardShortcuts.typing e -> onKeyDown captured h e = h)
  /\ (forall captured e,
        KeyboardShortcuts.key e <> "ArrowDown" ->
        KeyboardShortcuts.key e <> "ArrowUp" -> onKeyDown captured h e = h)
  /\ (forall e,
        KeyboardShortcuts.handleKeyDown e = Some KeyboardShortcuts.onNextPage ->
        shortcutsEnabled h = true ->
        currentPage h < Z.of_nat (length (pages (session h))) ->
        currentPage (latest (happenings (display h) [KeyDown e; KeyDown e]))
        = currentPage h + 2).
Proof.
  intros Hv. destruct (pressed_valid events h Hv) as [Hvalid Hsession].
  split; [exact Hvalid|]. split; [exact Hsession|].
  split; [|split].
  - intros captured e Ht. unfold onKeyDown.
    rewrite (KeyboardShortcutsFacts.handleKeyDown_typing e Ht).
    destruct (shortcutsEnabled captured); reflexivity.
  - intros captured e Hdown Hup. unfold onKeyDown.
    destruct (shortcutsEnabled captured); [|reflexivity].
    destruct (KeyboardShortcutsFacts.handleKeyDown_page e) as [Hn Hp].
    destruct (KeyboardShortcuts.handleKeyDown e) as [[]|]; try reflexivity.
    + exfalso. apply Hdown, Hn. reflexivity.
    + exfalso. apply Hup, Hp. reflexivity.
  - intros e Hnext Hon Hbelow. simpl. unfold onKeyDown.
    rewrite Hon, Hnext. simpl. unfold Navigation.goToNextPage. simpl.
    destruct (Z.ltb_spec (currentPage h) (Z.of_nat (length (pages (session h)))));
      lia.
Qed.

Lemma keys_navigate_within_range_witness :
  Navigation.valid
    (nav (latest (happenings (display MoreScenarios.reading_home)
                             (pressed MoreScenarios.some_keys))))
  /\ currentPage (latest (happenings (display MoreScenarios.reading_home)
                             [KeyDown MoreScenarios.arrow_down;
                              KeyDown MoreScenarios.arrow_down])) = 4.
Proof.
  destruct (keys_navigate_within_range MoreScenarios.reading_home
              MoreScenarios.some_keys) as (Hvalid & _ & _ & _ & Hstale).
  - unfold Navigation.valid. simpl. lia.
  - split; [exact Hvalid|].
    apply (Hstale MoreScenarios.arrow_down); [reflexivity | reflexivity|].
    simpl. lia.
Defined.

(** X2. Ending the session from [Home]: whatever the server answers to the
    DELETE request, [handleNewSession] completes, the current page is 1,
    the uploader is what is shown again, and the keyboard shortcuts are
    off, so that no later key press changes anything, whether or not
    [Home] renders in between. *)
Theorem new_session_shows_uploader (srv : Server) (w : World HomeState)
    (xs : list happening) :
  (handleNewSession srv w).1 = Normal tt
  /\ currentPage (state (handleNewSession srv w).2) = 1
  /\ screen (session (state (handleNewSession srv w).2)) = UploadScreen
  /\ shortcutsEnabled (state (handleNewSession srv w).2) = false
  /\ latest (happenings (display (state (handleNewSession srv w).2)) xs)
     = state (handleNewSession srv w).2.
Proof.
  assert (Hrun : (handleNewSession srv w).1 = Normal tt
                 /\ currentPage (state (handleNewSession srv w).2) = 1
                 /\ sessionId (session (state (handleNewSession srv w).2)) = None).
  { destruct w as [[[sid pg ld er] cp] sn lu um]. home_unfold. simpl.
    destruct sid as [[|c id]|]; simpl; auto.
    destruct (delete_session srv sn (String c id)) as [e|[d|e]|b]; simpl; auto. }
  destruct Hrun as (Hres & Hpage & Hsid).
  assert (Hoff : shortcutsEnabled (state (handleNewSession srv w).2) = false).
  { unfold shortcutsEnabled. rewrite Hsid. reflexivity. }
  split; [exact Hres|]. split; [exact Hpage|]. split.
  - unfold screen. rewrite Hsid. reflexivity.
  - split; [exact Hoff|].
    apply (happenings_disabled xs (display (state (handleNewSession srv w).2)));
      exact Hoff.
Qed.

(** X3. A successful upload from [Home]: when the upload and the page
    listing both succeed, with a non-empty session id and at least one
    page, [handleUpload] completes after exactly these two requests, the
    reader is shown on page 1, which is within [1, pages.length], and the
    keyboard shortcuts are on. *)
Theorem upload_opens_reader (srv : Server) (files : list File)
    (w : World HomeState) (r : UploadResponse) (p : PagesResponse) :
  upload_images srv (sent w) files = Ok (Read r) ->
  get_pages srv (sent w ++ [UploadImages files]) (session_id r) = Ok (Read p) ->
  truthy (Some (session_id r)) = true ->
  Api.pages p <> [] ->
  (handleUpload srv files w).1 = Normal tt
  /\ sent (handleUpload srv files w).2
     = (sent w ++ [UploadImages files; GetPages (session_id r)])%list
  /\ sessionId (session (state (handleUpload srv files w).2)) = Some (session_id r)
  /\ pages (session (state (handleUpload srv files w).2)) = Api.pages p
  /\ currentPage (state (handleUpload srv files w).2) = 1
  /\ screen (session (state (handleUpload srv files w).2)) = ReaderScreen
  /\ shortcutsEnabled (state (handleUpload srv files w).2) = true
  /\ Navigation.valid (nav (state (handleUpload srv files w).2)).
Proof.
  intros Hup Hpg Hid Hne.
  assert (Hlen : 0 < Z.of_nat (length (Api.pages p))).
  { destruct (Api.pages p); [contradiction | simpl; lia]. }
  destruct w as [[[sid pg ld er] cp] sn lu um]. simpl in *.
  home_unfold. simpl. rewrite Hup. simpl. rewrite Hpg. simpl.
  unfold screen, shortcutsEnabled, Navigation.valid, nav. simpl.
  rewrite Hid. simpl.
  destruct (Z.ltb_spec 0 (Z.of_nat (length (Api.pages p)))); [|lia].
  destruct (Z.gtb_spec (Z.of_nat (length (Api.pages p))) 0); [|lia].
  rewrite <- app_assoc. simpl.
  repeat split; try reflexivity; lia.
Qed.

Lemma upload_opens_reader_witness :
  screen (session (state (handleUpload Scenarios.steady_server
                            [Scenarios.one_jpeg] MoreScenarios.fresh_home).2))
  = ReaderScreen.
Proof.
  destruct (upload_opens_reader Scenarios.steady_server [Scenarios.one_jpeg]
              MoreScenarios.fresh_home
              {| session_id := "s1"; page_count := 1;
                 message := "Processed 1 page" |}
              {| pages_session_id := "s1";
                 Api.pages := [{| page_number := 1; text := "Once upon a time" |}] |})
    as (_ & _ & _ & _ & _ & Hscreen & _).
  - reflexivity.
  - reflexivity.
  - reflexivity.
  - discriminate.
  - exact Hscreen.
Defined.

(** X4. An upload the server refuses: when the upload request is answered
    with a non-ok status, [handleUpload] throws what [uploadImages]
    throws: for a body that is a JSON object, an error whose message is
    its [detail], or "Upload failed" when the detail is missing or empty;
    for any other body, the error raised while reading it.  The hook
    shows the message of what was thrown ("Upload failed" when that is
    not an [Error]), is no longer loading, and keeps its session id and
    pages; the current page is not reset; and the page listing is never
    requested. *)
Theorem refused_upload_reports_detail (srv : Server) (files : list File)
    (w : World HomeState) (body : Body (option string)) :
  upload_images srv (sent w) files = NotOk body ->
  (handleUpload srv files w).1 = Throw (refusal body)
  /\ sent (handleUpload srv files w).2 = (sent w ++ [UploadImages files])%list
  /\ error (session (state (handleUpload srv files w).2))
     = Some (message_or (refusal body) "Upload failed")
  /\ (forall detail, body = Read detail ->
        (handleUpload srv files w).1
        = Throw (ErrorObj (js_or detail "Upload failed"))
        /\ error (session (state (handleUpload srv files w).2))
           = Some (js_or detail "Upload failed"))
  /\ (forall e, body = Unreadable e ->
        (handleUpload srv files w).1 = Throw e
        /\ error (session (state (handleUpload srv files w).2))
           = Some (message_or e "Upload failed"))
  /\ isLoading (session (state (handleUpload srv files w).2)) = false
  /\ sessionId (session (state (handleUpload srv files w).2))
     = sessionId (session (state w))
  /\ pages (session (state (handleUpload srv files w).2)) = pages (session (state w))
  /\ currentPage (state (handleUpload srv files w).2) = currentPage (state w).
Proof.
  intros Hup. destruct w as [[[sid pg ld er] cp] sn lu um]. simpl in *.
  home_unfold. simpl. rewrite Hup.
  destruct body as [detail|e]; simpl;
    repeat match goal with
           | |- _ /\ _ => split
           | |- forall _, _ = _ -> _ => intros ? Heq; inversion Heq
           end; reflexivity.
Qed.

Lemma refused_upload_reports_detail_witness :
  error (session (state (handleUpload MoreScenarios.strict_server []
                           MoreScenarios.fresh_home).2))
  = Some "No files provided"
  /\ error (session (state (handleUpload MoreScenarios.failing_proxy []
                              MoreScenarios.fresh_home).2))
     = Some "Unexpected token < in JSON at position 0".
Proof.
  split.
  - destruct (refused_upload_reports_detail MoreScenarios.strict_server []
                MoreScenarios.fresh_home (Read (Some "No files provided")))
      as (_ & _ & Herr & _); [reflexivity | exact Herr].
  - destruct (refused_upload_reports_detail MoreScenarios.failing_proxy []
                MoreScenarios.fresh_home
                (Unreadable (ErrorObj "Unexpected token < in JSON at position 0")))
      as (_ & _ & Herr & _); [reflexivity | exact Herr].
Defined.

End HomeFacts.

Module ReaderViewFacts.
Import Api ReaderView.

(** In a list numbered from [k] on, the page numbered [n] is found at
    index [n - k]. *)
Lemma find_numbered_from (pages : list PageText) : forall (k n : Z),
  (forall i p, pages !! i = Some p -> page_number p = Z.of_nat i + k) ->
  k <= n < k + Z.of_nat (length pages) ->
  List.find (fun p => page_number p =? n) pages = pages !! Z.to_nat (n - k).
Proof.
  induction pages as [|q pages IH]; intros k n Hnum Hn; simpl in *; [lia|].
  pose proof (Hnum 0%nat q eq_refl) as Hq. simpl in Hq.
  destruct (Z.eqb_spec (page_number q) n) as [Heq|Hneq].
  - replace (n - k) with 0 by lia. reflexivity.
  - rewrite (IH (k + 1) n).
    + replace (Z.to_nat (n - k)) with (S (Z.to_nat (n - (k + 1)))) by lia.
      reflexivity.
    + intros i p Hp. rewrite (Hnum (S i) p Hp). lia.
    + lia.
Qed.

Lemma page_numbered pages n :
  numbered pages -> 1 <= n <= Z.of_nat (length pages) ->
  page pages n = pages !! Z.to_nat (n - 1) /\ is_Some (page pages n).
Proof.
  intros Hnum Hn. unfold page.
  rewrite (find_numbered_from pages 1 n) by (assumption || lia).
  split; [reflexivity|]. apply lookup_lt_is_Some. lia.
Qed.

Lemma click_in_range pages n a :
  numbered pages -> 1 <= n <= Z.of_nat (length pages) ->
  1 <= click pages n a <= Z.of_nat (length pages).
Proof.
  intros Hnum Hn. destruct a as [| |i]; simpl.
  - unfold Navigation.goToPrevious. simpl. destruct (Z.gtb_spec n 1); lia.
  - unfold Navigation.goToNext. simpl.
    destruct (Z.ltb_spec n (Z.of_nat (length pages))); lia.
  - destruct (Z.of_nat (length pages) >? 1); [|exact Hn].
    destruct (pages !! i) as [p|] eqn:Hp; [|exact Hn].
    rewrite (Hnum i p Hp). apply lookup_lt_Some in Hp. lia.
Qed.

Lemma clicks_in_range pages acts : forall n,
  numbered pages -> 1 <= n <= Z.of_nat (length pages) ->
  1 <= clicks pages n acts <= Z.of_nat (length pages).
Proof.
  induction acts as [|a acts IH]; intros n Hnum Hn; [exact Hn|].
  simpl. apply IH; [exact Hnum|]. apply click_in_range; assumption.
Qed.

(** X5. The page shown by the reader: when the pages are numbered 1..N in
    order and the current page is within [1, N], then after any sequence
    of clicks on previous, next and the thumbnails the current page is
    still within [1, N] and the page looked up for display is the one at
    that position of the list, so "Page not found" is never shown. *)
Theorem reader_always_finds_page (pages : list PageText) (currentPage : Z)
    (acts : list action) :
  numbered pages ->
  1 <= currentPage <= Z.of_nat (length pages) ->
  1 <= clicks pages currentPage acts <= Z.of_nat (length pages)
  /\ page pages (clicks pages currentPage acts)
     = pages !! Z.to_nat (clicks pages currentPage acts - 1)
  /\ is_Some (page pages (clicks pages currentPage acts)).
Proof.
  intros Hnum Hn.
  pose proof (clicks_in_range pages acts currentPage Hnum Hn) as Hr.
  split; [exact Hr|]. apply page_numbered; assumption.
Qed.

Lemma reader_always_finds_page_witness :
  page MoreScenarios.three_pages
       (clicks MoreScenarios.three_pages 2 [Next; Next; Thumbnail 0; Previous; Thumbnail 7])
  = Some {| page_number := 1; text := "Once upon a time" |}.
Proof.
  destruct (reader_always_finds_page MoreScenarios.three_pages 2
              [Next; Next; Thumbnail 0; Previous; Thumbnail 7])
    as (_ & Hpage & _).
  - intros i p Hp. destruct i as [|[|[|i]]]; simpl in Hp; inversion Hp; reflexivity.
  - simpl. lia.
  - rewrite Hpage. reflexivity.
Defined.

End ReaderViewFacts.

Module AudioControlsFacts.
Import Api AudioPlayer AudioControls.

Ltac player_unfold :=
  unfold loadAudio, togglePlayPause, cleanup, getTTSAudio, setIsLoading,
    AudioPlayer.setError, setIsPlaying, setProgress, setAudioUrl, setLoadedPage,
    pauseAudio, playAudio in *;
  js_unfold.

Lemma revoke_only (url : string) : filter (fun u => u ≠ url) [url] = [].
Proof. rewrite filter_cons_False by (intros Hne; apply Hne; reflexivity). reflexivity. Qed.

(** What [loadAudio] does to the object URLs: nothing when the audio is
    already loaded; otherwise the URL held is revoked and, when the
    request succeeds, one new URL is made and held. *)
Lemma loadAudio_urls srv sid page (w : World PlayerState) :
  let revoked := match audioUrl (state w) with
                 | Some url => if truthy (Some url)
                               then filter (fun u => u ≠ url) (live_urls w)
                               else live_urls w
                 | None => live_urls w
                 end in
  (loadAudio srv sid page w).2 = w
  \/ (live_urls (loadAudio srv sid page w).2 = revoked
      /\ audioUrl (state (loadAudio srv sid page w).2) = audioUrl (state w))
  \/ (live_urls (loadAudio srv sid page w).2
      = (revoked ++ ["blob:" +:+ pretty (urls_made w)])%list
      /\ audioUrl (state (loadAudio srv sid page w).2)
         = Some ("blob:" +:+ pretty (urls_made w))).
Proof.
  destruct w as [[ld pl au er pr ar lp] sn lu um]. player_unfold.
  cbn [state live_urls urls_made audioUrl loadedPageRef audioRef].
  destruct (bool_decide (lp = Some page) && truthy au); [left; reflexivity|].
  right.
  destruct au as [url|].
  - destruct (truthy (Some url)); destruct (bool_decide (is_Some ar));
      cbn -[filter];
      destruct (tts_english srv sn sid page) as [e|[d|e]|[b|e]]; cbn -[filter];
      (left; split; reflexivity) || (right; split; reflexivity).
  - destruct (bool_decide (is_Some ar)); simpl;
      destruct (tts_english srv sn sid page) as [e|[d|e]|[b|e]]; simpl;
      (left; split; reflexivity) || (right; split; reflexivity).
Qed.

Lemma loadAudio_one_live srv sid page (w : World PlayerState) :
  one_live w -> one_live (loadAudio srv sid page w).2.
Proof.
  intros Hone.
  assert (Hrev : match audioUrl (state w) with
                 | Some url => if truthy (Some url)
                               then filter (fun u => u ≠ url) (live_urls w)
                               else live_urls w
                 | None => live_urls w
                 end = []).
  { destruct Hone as [Hnil|(url & Hlive & Hurl & Htruthy)].
    - rewrite Hnil. destruct (audioUrl (state w)) as [url|]; [|reflexivity].
      destruct (truthy (Some url)); reflexivity.
    - rewrite Hurl, Htruthy, Hlive. apply revoke_only. }
  destruct (loadAudio_urls srv sid page w) as [Hsame|[[Hlive Hurl]|[Hlive Hurl]]].
  - rewrite Hsame. exact Hone.
  - left. rewrite Hlive. exact Hrev.
  - right. exists ("blob:" +:+ pretty (urls_made w)).
    rewrite Hlive, Hrev, Hurl. repeat split; reflexivity.
Qed.

Lemma togglePlayPause_one_live srv sid page (w : World PlayerState) :
  one_live w -> one_live (togglePlayPause srv sid page w).2.
Proof.
  intros Hone.
  destruct (truthy (audioUrl (state w))) eqn:Htruthy.
  - assert (Hsame : live_urls (togglePlayPause srv sid page w).2 = live_urls w
                    /\ audioUrl (state (togglePlayPause srv sid page w).2)
                       = audioUrl (state w)).
    { destruct w as [[ld pl au er pr ar lp] sn lu um]. simpl in Htruthy.
      unfold togglePlayPause, pauseAudio, playAudio. js_unfold.
      cbn [state audioUrl audioRef isPlaying]. rewrite Htruthy.
      destruct (bool_decide (is_Some ar)); destruct pl; simpl; auto. }
    destruct Hsame as [Hlive Hurl]. unfold one_live. rewrite Hlive, Hurl.
    exact Hone.
  - replace (togglePlayPause srv sid page w) with (loadAudio srv sid page w).
    + apply loadAudio_one_live, Hone.
    + destruct w as [s sn lu um]. simpl in Htruthy.
      unfold togglePlayPause. js_unfold. cbn [state]. rewrite Htruthy. reflexivity.
Qed.

Lemma run_one_live srv sid rs : forall w : World PlayerState,
  one_live w -> one_live (run srv sid w rs).
Proof.
  induction rs as [|r rs IH]; intros w Hone; [exact Hone|].
  simpl. apply IH. destruct r as [page|page]; simpl.
  - apply loadAudio_one_live, Hone.
  - apply togglePlayPause_one_live, Hone.
Qed.

Lemma cleanup_one_live (w : World PlayerState) :
  one_live w -> live_urls (cleanup w).2 = [].
Proof.
  intros Hone. destruct w as [[ld pl au er pr ar lp] sn lu um].
  unfold one_live in Hone. cbn [live_urls state audioUrl] in Hone.
  unfold cleanup. js_unfold.
  destruct Hone as [->|(url & -> & -> & Htruthy)].
  - destruct au as [[|c u]|]; reflexivity.
  - cbn -[filter truthy]. rewrite Htruthy. cbn -[filter]. apply revoke_only.
Qed.

(** X6. The player never accumulates audio: starting with at most the one
    object URL it holds live, after any sequence of audio requests (from
    the generate button, the play button or the space key, for any pages,
    whatever the server answers) at most one object URL is live, namely
    the one the player holds; and the clean-up run on unmount leaves none
    live. *)
Theorem player_keeps_one_audio_url (srv : Server) (sid : string)
    (w : World PlayerState) (rs : list request) :
  one_live w ->
  one_live (run srv sid w rs)
  /\ (length (live_urls (run srv sid w rs)) <= 1)%nat
  /\ live_urls (cleanup (run srv sid w rs)).2 = [].
Proof.
  intros Hone. pose proof (run_one_live srv sid rs w Hone) as Hrun.
  split; [exact Hrun|]. split; [|apply cleanup_one_live, Hrun].
  destruct Hrun as [->|(url & -> & _)]; simpl; lia.
Qed.

Lemma player_keeps_one_audio_url_witness :
  (length (live_urls (run MoreScenarios.page_one_only "s1" Scenarios.silent_player
                        [Toggle 1; Generate 2; Generate 1; Toggle 1; Generate 3]))
   <= 1)%nat
  /\ live_urls (cleanup (run MoreScenarios.page_one_only "s1" Scenarios.silent_player
                           [Toggle 1; Generate 2; Generate 1; Toggle 1; Generate 3])).2
     = [].
Proof.
  destruct (player_keeps_one_audio_url MoreScenarios.page_one_only "s1"
              Scenarios.silent_player
              [Toggle 1; Generate 2; Generate 1; Toggle 1; Generate 3])
    as (_ & Hlen & Hclean).
  - left. reflexivity.
  - split; [exact Hlen | exact Hclean].
Defined.

(** X7. A failed change of page in the player: with the audio of page [p]
    loaded, a [loadAudio] for another page [q] whose request fails
    completes with an error message and loading off, and still holds the
    URL and the loaded page of [p]; but that URL has been revoked, and a
    later [loadAudio] for [p] returns at once without requesting the audio
    again. *)
Theorem failed_load_keeps_revoked_audio (srv : Server) (sid : string)
    (p q : Z) (url : string) (w : World PlayerState) :
  loadedPageRef (state w) = Some p ->
  audioUrl (state w) = Some url ->
  truthy (Some url) = true ->
  q <> p ->
  (forall blob, tts_english srv (sent w) sid q <> Ok (Read blob)) ->
  (loadAudio srv sid q w).1 = Normal tt
  /\ sent (loadAudio srv sid q w).2 = (sent w ++ [GetTTSAudio sid q])%list
  /\ is_Some (error (state (loadAudio srv sid q w).2))
  /\ isLoading (state (loadAudio srv sid q w).2) = false
  /\ audioUrl (state (loadAudio srv sid q w).2) = Some url
  /\ loadedPageRef (state (loadAudio srv sid q w).2) = Some p
  /\ (url ∉ live_urls (loadAudio srv sid q w).2)
  /\ loadAudio srv sid p (loadAudio srv sid q w).2
     = (Normal tt, (loadAudio srv sid q w).2).
Proof.
  intros Hpage Hurl Htruthy Hne Hfail.
  assert (Hrun : (loadAudio srv sid q w).1 = Normal tt
     /\ sent (loadAudio srv sid q w).2 = (sent w ++ [GetTTSAudio sid q])%list
     /\ is_Some (error (state (loadAudio srv sid q w).2))
     /\ isLoading (state (loadAudio srv sid q w).2) = false
     /\ audioUrl (state (loadAudio srv sid q w).2) = Some url
     /\ loadedPageRef (state (loadAudio srv sid q w).2) = Some p
     /\ live_urls (loadAudio srv sid q w).2
        = filter (fun u => u ≠ url) (live_urls w)).
  { destruct w as [[ld pl au er pr ar lp] sn lu um].
    cbn [state sent live_urls audioUrl loadedPageRef] in *. subst lp au.
    player_unfold. cbn [state audioUrl loadedPageRef audioRef].
    rewrite bool_decide_eq_false_2 by congruence. cbn [andb].
    rewrite Htruthy.
    destruct (bool_decide (is_Some ar)); cbn -[filter];
      destruct (tts_english srv sn sid q) as [e|[d|e]|[b|e]] eqn:Hreply;
      cbn -[filter];
      try (exfalso; apply (Hfail b); reflexivity);
      repeat split; eauto. }
  destruct Hrun as (Hres & Hsent & Herr & Hload & Hurl' & Hpage' & Hlive).
  repeat (split; [assumption|]). split.
  - rewrite Hlive. intros Hin. apply list_elem_of_filter in Hin as [Hin _].
    apply Hin. reflexivity.
  - apply AudioPlayerFacts.loadAudio_hit; [exact Hpage'|].
    rewrite Hurl'. exact Htruthy.
Qed.

Lemma failed_load_keeps_revoked_audio_witness :
  "blob:0" ∉ live_urls (loadAudio MoreScenarios.page_one_only "s1" 2
                          MoreScenarios.page_one_loaded).2.
Proof.
  destruct (failed_load_keeps_revoked_audio MoreScenarios.page_one_only "s1"
              1 2 "blob:0" MoreScenarios.page_one_loaded)
    as (_ & _ & _ & _ & _ & _ & Hrevoked & _).
  - reflexivity.
  - reflexivity.
  - reflexivity.
  - lia.
  - intros blob. discriminate.
  - exact Hrevoked.
Defined.

End AudioControlsFacts.

Module AudioButtonsFacts.
Import Api AudioPlayer AudioControls AudioButtons.

Lemma pressed_keeps_audio srv sid (w : World PlayerState) (p : press) :
  truthy (audioUrl (state w)) = true ->
  sent (pressed srv sid w p) = sent w
  /\ audioUrl (state (pressed srv sid w p)) = audioUrl (state w)
  /\ loadedPageRef (state (pressed srv sid w p)) = loadedPageRef (state w)
  /\ live_urls (pressed srv sid w p) = live_urls w.
Proof.
  intros Htruthy. destruct p as [page|page]; unfold pressed.
  - unfold generateOffered. rewrite Htruthy. simpl. auto.
  - destruct w as [[ld pl au er pr ar lp] sn lu um]. simpl in Htruthy.
    unfold togglePlayPause, pauseAudio, playAudio. js_unfold.
    cbn [state audioUrl audioRef isPlaying]. rewrite Htruthy.
    destruct (bool_decide (is_Some ar)); destruct pl; simpl; auto.
Qed.

Lemma presses_keep_audio srv sid (ps : list press) : forall w : World PlayerState,
  truthy (audioUrl (state w)) = true ->
  sent (presses srv sid w ps) = sent w
  /\ audioUrl (state (presses srv sid w ps)) = audioUrl (state w)
  /\ loadedPageRef (state (presses srv sid w ps)) = loadedPageRef (state w)
  /\ live_urls (presses srv sid w ps) = live_urls w.
Proof.
  induction ps as [|p ps IH]; intros w Htruthy; [auto|].
  simpl. destruct (pressed_keeps_audio srv sid w p Htruthy)
    as (Hsent & Hurl & Hpage & Hlive).
  destruct (IH (pressed srv sid w p)) as (Hsent' & Hurl' & Hpage' & Hlive').
  { rewrite Hurl. exact Htruthy. }
  repeat split; congruence.
Qed.

(** X17. The audio stays that of the page it was first generated for:
    once the player holds an audio URL then, for as long as it stays
    mounted, no press of the play button, the
    space key or the generate button, on whatever page is being read,
    sends a TTS request or changes the audio URL, the loaded page or the
    live object URLs; and the generate button is not offered. *)
Theorem audio_is_never_regenerated (srv : Server) (sid : string)
    (w : World PlayerState) (ps : list press) :
  truthy (audioUrl (state w)) = true ->
  sent (presses srv sid w ps) = sent w
  /\ audioUrl (state (presses srv sid w ps)) = audioUrl (state w)
  /\ loadedPageRef (state (presses srv sid w ps)) = loadedPageRef (state w)
  /\ live_urls (presses srv sid w ps) = live_urls w
  /\ generateOffered (state (presses srv sid w ps)) = false.
Proof.
  intros Htruthy.
  destruct (presses_keep_audio srv sid ps w Htruthy)
    as (Hsent & Hurl & Hpage & Hlive).
  repeat (split; [assumption|]).
  unfold generateOffered. rewrite Hurl, Htruthy. reflexivity.
Qed.

Lemma audio_is_never_regenerated_witness :
  sent (presses MoreScenarios.page_one_only "s1" MoreScenarios.page_one_loaded
          [PressPlay 2; PressGenerate 2; PressPlay 3])
  = [GetTTSAudio "s1" 1]
  /\ loadedPageRef (state (presses MoreScenarios.page_one_only "s1"
                             MoreScenarios.page_one_loaded
                             [PressPlay 2; PressGenerate 2; PressPlay 3]))
     = Some 1.
Proof.
  destruct (audio_is_never_regenerated MoreScenarios.page_one_only "s1"
              MoreScenarios.page_one_loaded
              [PressPlay 2; PressGenerate 2; PressPlay 3])
    as (Hsent & _ & Hpage & _).
  - reflexivity.
  - split; [rewrite Hsent | rewrite Hpage]; reflexivity.
Defined.

End AudioButtonsFacts.

Module CharacterSearchFacts.
Import Api CharacterTable CharacterSearch.

Lemma includes_empty (s : string) : includes s "" = true.
Proof. destruct s; reflexivity. Qed.

(** X8. The language buttons of the character table: before any
    extraction a button only switches the language and sends nothing;
    once characters have been loaded it sends exactly one characters
    request for the chosen language, and if that request fails the table
    keeps the list it had while the language shown is already the chosen
    one and an error is reported. *)
Theorem selectLanguage_requests_once_loaded (srv : Server) (sid : string)
    (lang : Language) (w : World TableState) :
  (selectLanguage srv sid lang w).1 = Normal tt
  /\ language (state (selectLanguage srv sid lang w).2) = lang
  /\ (hasLoaded (state w) = false ->
      sent (selectLanguage srv sid lang w).2 = sent w
      /\ characters (state (selectLanguage srv sid lang w).2) = characters (state w)
      /\ error (state (selectLanguage srv sid lang w).2) = error (state w))
  /\ (hasLoaded (state w) = true ->
      sent (selectLanguage srv sid lang w).2
      = (sent w ++ [GetCharacters sid lang])%list
      /\ ((forall r, get_characters srv (sent w) sid lang <> Ok (Read r)) ->
          characters (state (selectLanguage srv sid lang w).2) = characters (state w)
          /\ is_Some (error (state (selectLanguage srv sid lang w).2)))
      /\ (forall r, get_characters srv (sent w) sid lang = Ok (Read r) ->
                    characters (state (selectLanguage srv sid lang w).2)
                    = Api.characters r)).
Proof.
  destruct w as [[ch lg ld er hl] sn lu um].
  unfold selectLanguage, handleExtractCharacters, getCharacters, setIsLoading,
    CharacterTable.setError, setLanguage, setCharacters, setHasLoaded.
  js_unfold. cbn [state hasLoaded].
  destruct hl; simpl.
  - destruct (get_characters srv sn sid lang) as [e|[d|e]|[r|e]] eqn:Hreply; simpl;
      (split; [reflexivity|]); (split; [reflexivity|]);
      (split; [discriminate|]); intros _; (split; [reflexivity|]); split;
      try (intros Hfail; exfalso; apply (Hfail r); reflexivity);
      try (intros _; split; [reflexivity | eauto]);
      intros r0 Hr0; inversion Hr0; reflexivity.
  - split; [reflexivity|]. split; [reflexivity|]. split; [auto | discriminate].
Qed.

Lemma selectLanguage_requests_once_loaded_witness :
  sent (selectLanguage Scenarios.steady_server "s1" telugu Scenarios.stale_table).2
  = [GetCharacters "s1" english; GetCharacters "s1" telugu].
Proof.
  destruct (selectLanguage_requests_once_loaded Scenarios.steady_server "s1" telugu
              Scenarios.stale_table) as (_ & _ & _ & Hloaded).
  destruct Hloaded as (Hsent & _); [reflexivity|]. exact Hsent.
Defined.

Section Search.
Context (toLowerCase : string -> string).

Lemma filtered_all (characters : list Character) (searchQuery : string) :
  (forall char, char ∈ characters -> matches toLowerCase searchQuery char = true) ->
  filteredCharacters toLowerCase characters searchQuery = characters.
Proof.
  intros Hall. unfold filteredCharacters.
  induction characters as [|c cs IH]; [reflexivity|].
  rewrite filter_cons_True by (apply Hall; left).
  f_equal. apply IH. intros char Hin. apply Hall. right. exact Hin.
Qed.

End Search.

(** X9. The search box of the character table: the rows displayed are
    always a sub-list of the characters, in the same order, and each of
    them matches the query; with an empty search box (lower-casing the
    empty string giving the empty string) every character is displayed
    and the "No characters matching" notice is not shown; the notice is
    shown only over a table that has characters, none of which matches a
    query that is not empty. *)
Theorem search_filters_in_order (toLowerCase : string -> string)
    (characters : list Character) (searchQuery : string) :
  toLowerCase "" = "" ->
  filteredCharacters toLowerCase characters searchQuery `sublist_of` characters
  /\ (forall char, char ∈ filteredCharacters toLowerCase characters searchQuery ->
                   matches toLowerCase searchQuery char = true)
  /\ filteredCharacters toLowerCase characters "" = characters
  /\ (forall isExpanded s, noMatchShown toLowerCase isExpanded s "" = false)
  /\ (forall isExpanded s,
        noMatchShown toLowerCase isExpanded s searchQuery = true ->
        CharacterTable.characters s <> []
        /\ filteredCharacters toLowerCase (CharacterTable.characters s)
                              searchQuery = []
        /\ searchQuery <> "").
Proof.
  intros Hempty. split; [apply sublist_filter|]. split.
  - intros char Hin. unfold filteredCharacters in Hin.
    apply list_elem_of_filter in Hin as [Hm _]. exact Hm.
  - split.
    + apply filtered_all. intros char _. unfold matches.
      rewrite Hempty, includes_empty. reflexivity.
    + split.
      * intros isExpanded s. unfold noMatchShown. simpl.
        rewrite !andb_false_r. reflexivity.
      * intros isExpanded s Hshown. unfold noMatchShown in Hshown.
        apply andb_true_iff in Hshown as [Htable Hnone].
        apply andb_true_iff in Htable as [_ Htable].
        apply andb_true_iff in Htable as [_ Hsome].
        apply andb_true_iff in Hnone as [Hnone Hquery].
        split; [|split].
        -- intros Hnil. rewrite Hnil in Hsome. discriminate.
        -- apply Z.eqb_eq in Hnone.
           destruct (filteredCharacters toLowerCase (CharacterTable.characters s)
                                        searchQuery); [reflexivity | discriminate].
        -- intros Hempty'. rewrite Hempty' in Hquery. discriminate.
Qed.

Lemma search_filters_in_order_witness :
  filteredCharacters lower MoreScenarios.cast "" = MoreScenarios.cast
  /\ filteredCharacters lower MoreScenarios.cast "GOD" `sublist_of` MoreScenarios.cast.
Proof.
  destruct (search_filters_in_order lower MoreScenarios.cast "GOD")
    as (Hsub & _ & Hall & _).
  - reflexivity.
  - split; [exact Hall | exact Hsub].
Defined.

End CharacterSearchFacts.

Module UploaderEventsFacts.
Import Api ImageUploader UploaderEvents.
Local Open Scope list_scope.

Ltac events_unfold :=
  unfold handle, handleFileSelect, removeFile, clearAll, handleUpload, openCamera,
    handleCameraCapture, setSelectedFiles, setPreviews, setIsUploading,
    ImageUploader.setError, setShowCamera in *;
  js_unfold.

(** [without_index] removes the element at the index, if there is one. *)
Lemma keep_others {A} (l : list A) : forall (g : nat -> nat) (k : nat),
  (forall j, g j <> k) ->
  (filter (fun ix : nat * A => ix.1 ≠ k) (imap (fun j x => (g j, x)) l)).*2 = l.
Proof.
  induction l as [|x l IH]; intros g k Hg; [reflexivity|].
  rewrite imap_cons. rewrite filter_cons_True by (simpl; apply Hg).
  simpl. f_equal. apply (IH (fun j => g (S j)) k). intros j. apply Hg.
Qed.

Lemma without_index_shifted {A} (l : list A) : forall (g : nat -> nat) (i : nat),
  (forall j j', g j = g j' -> j = j') ->
  (filter (fun ix : nat * A => ix.1 ≠ g i) (imap (fun j x => (g j, x)) l)).*2
  = take i l ++ drop (S i) l.
Proof.
  induction l as [|x l IH]; intros g i Hinj.
  - destruct i; reflexivity.
  - rewrite imap_cons. destruct i as [|i].
    + rewrite filter_cons_False by (simpl; intros Hne; apply Hne; reflexivity).
      simpl. rewrite drop_0.
      apply (keep_others l (fun j => g (S j)) (g 0%nat)).
      intros j Heq. apply Hinj in Heq. discriminate.
    + rewrite filter_cons_True
        by (simpl; intros Heq; apply Hinj in Heq; discriminate).
      simpl. f_equal. apply (IH (fun j => g (S j)) i).
      intros j j' Heq. apply Hinj in Heq. congruence.
Qed.

Lemma without_index_take_drop {A} (i : nat) (l : list A) :
  without_index i l = take i l ++ drop (S i) l.
Proof.
  unfold without_index. apply (without_index_shifted l (fun j => j) i). auto.
Qed.

Lemma without_index_out_of_range {A} (i : nat) (l : list A) :
  (length l <= i)%nat -> without_index i l = l.
Proof.
  intros Hi. rewrite without_index_take_drop.
  rewrite take_ge by lia. rewrite drop_ge by lia. apply app_nil_r.
Qed.

Lemma without_index_length_lt {A} (i : nat) (l : list A) :
  (i < length l)%nat -> length (without_index i l) = (length l - 1)%nat.
Proof.
  intros Hi. rewrite without_index_take_drop, length_app, length_take, length_drop.
  lia.
Qed.

Lemma filter_ne_absent (url : string) (l : list string) :
  url ∉ l -> filter (fun v => v ≠ url) l = l.
Proof.
  intros Hnin. induction l as [|x l IH]; [reflexivity|].
  apply not_elem_of_cons in Hnin as [Hne Hnin].
  rewrite filter_cons_True by congruence. f_equal. apply IH, Hnin.
Qed.

(** Revoking the preview at an index of a duplicate-free list leaves the
    other previews. *)
Lemma filter_ne_without_index (l : list string) : forall (i : nat) (url : string),
  NoDup l -> l !! i = Some url ->
  filter (fun v => v ≠ url) l = without_index i l.
Proof.
  intros i url Hnd Hi. rewrite without_index_take_drop. revert i url Hnd Hi.
  induction l as [|x l IH]; intros i url Hnd Hi; [discriminate|].
  apply NoDup_cons in Hnd as [Hx Hnd]. destruct i as [|i]; simpl in Hi.
  - inversion Hi; subst.
    rewrite filter_cons_False by (intros Hne; apply Hne; reflexivity).
    simpl. rewrite drop_0. apply filter_ne_absent, Hx.
  - assert (x <> url).
    { intros ->. apply Hx. eapply list_elem_of_lookup_2, Hi. }
    rewrite filter_cons_True by assumption. simpl. f_equal.
    apply IH; assumption.
Qed.

Lemma revokeAll_world urls : forall w : World UploaderState,
  (revokeAll urls w).1 = Normal tt
  /\ state (revokeAll urls w).2 = state w
  /\ sent (revokeAll urls w).2 = sent w
  /\ urls_made (revokeAll urls w).2 = urls_made w
  /\ live_urls (revokeAll urls w).2
     = filter (fun v => v ∉ urls) (live_urls w).
Proof.
  induction urls as [|u urls IH]; intros w; simpl.
  - repeat split; try reflexivity.
    symmetry. clear. induction (live_urls w) as [|x l IHl]; [reflexivity|].
    rewrite filter_cons_True by apply not_elem_of_nil. f_equal. exact IHl.
  - js_unfold. simpl.
    destruct (IH {| state := state w; sent := sent w;
                    live_urls := filter (fun u0 => u0 ≠ u) (live_urls w);
                    urls_made := urls_made w |})
      as (Hr & Hs & Hsn & Hum & Hlive).
    repeat split; try assumption.
    rewrite Hlive. simpl. clear.
    induction (live_urls w) as [|x l IHl]; [reflexivity|].
    destruct (decide (x = u)) as [->|Hne].
    + rewrite filter_cons_False by (intros Hn; apply Hn; reflexivity).
      rewrite filter_cons_False by (intros Hn; apply Hn; left).
      exact IHl.
    + rewrite (filter_cons_True (fun u0 => u0 ≠ u)) by assumption.
      destruct (decide (x ∈ urls)) as [Hin|Hnin].
      * rewrite filter_cons_False by (intros Hn; apply Hn; exact Hin).
        rewrite filter_cons_False by (intros Hn; apply Hn; right; exact Hin).
        exact IHl.
      * rewrite filter_cons_True by assumption.
        rewrite filter_cons_True
          by (intros Hin; apply elem_of_cons in Hin as [?|?]; contradiction).
        f_equal. exact IHl.
Qed.

Lemma filter_notin_self (l : list string) : filter (fun v => v ∉ l) l = [].
Proof.
  assert (Hgen : forall l', (forall v, v ∈ l' -> v ∈ l) ->
                            filter (fun v => v ∉ l) l' = []).
  { induction l' as [|x l' IH]; intros Hsub; [reflexivity|].
    rewrite filter_cons_False by (intros Hn; apply Hn, Hsub; left).
    apply IH. intros v Hv. apply Hsub. right. exact Hv. }
  apply Hgen. auto.
Qed.

Lemma fresh_url_new (w : World UploaderState) :
  tidy w -> "blob:" +:+ pretty (urls_made w) ∉ previews (state w).
Proof.
  intros (_ & _ & _ & Hold) Hin.
  eapply Forall_forall in Hold; [|exact Hin].
  destruct Hold as (k & Hk & Heq).
  apply (inj (String.app "blob:")) in Heq. apply (inj pretty) in Heq. lia.
Qed.

Lemma older_urls (n : nat) (l : list string) :
  Forall (fun url => ∃ k : nat, (k < n)%nat ∧ url = "blob:" +:+ pretty k) l ->
  Forall (fun url => ∃ k : nat, (k < S n)%nat ∧ url = "blob:" +:+ pretty k) l.
Proof.
  intros Hall. eapply Forall_impl; [exact Hall|].
  intros url (k & Hk & Heq). exists k. split; [lia | exact Heq].
Qed.

(** Adding a file with a fresh preview keeps the selection tidy. *)
Lemma add_tidy (w : World UploaderState) (file : File) (cam : bool) :
  tidy w ->
  tidy {| state := {| selectedFiles := selectedFiles (state w) ++ [file];
                      previews := previews (state w)
                                  ++ ["blob:" +:+ pretty (urls_made w)];
                      isUploading := isUploading (state w);
                      error := None;
                      showCamera := cam |};
          sent := sent w;
          live_urls := live_urls w ++ ["blob:" +:+ pretty (urls_made w)];
          urls_made := S (urls_made w) |}.
Proof.
  intros Ht. pose proof (fresh_url_new w Ht) as Hfresh.
  destruct Ht as (Hlive & Hlen & Hnd & Hold).
  unfold tidy. cbn [state live_urls urls_made previews selectedFiles].
  split; [rewrite Hlive; reflexivity|]. split.
  - rewrite !length_app, Hlen. reflexivity.
  - split.
    + apply NoDup_app. split; [exact Hnd|]. split.
      * intros x Hx Hin. apply list_elem_of_singleton in Hin. subst x.
        exact (Hfresh Hx).
      * apply NoDup_singleton.
    + apply Forall_app. split; [apply older_urls, Hold|].
      constructor; [|constructor]. exists (urls_made w). split; [lia | reflexivity].
Qed.

Lemma state_only_tidy (w : World UploaderState) (er : option string) (cam : bool) :
  tidy w ->
  tidy {| state := {| selectedFiles := selectedFiles (state w);
                      previews := previews (state w);
                      isUploading := isUploading (state w);
                      error := er; showCamera := cam |};
          sent := sent w; live_urls := live_urls w; urls_made := urls_made w |}.
Proof. intros Ht. exact Ht. Qed.

Lemma handle_tidy (maxFiles : Z) (ev : event) (w : World UploaderState) :
  tidy w -> tidy (handle maxFiles ev w).2.
Proof.
  intros Ht. destruct ev as [[[|file rest]|]|i| | |file|].
  - exact Ht.
  - (* a file offered to the file input *)
    pose proof (add_tidy w file (showCamera (state w)) Ht) as Hadd.
    pose proof (fun er => state_only_tidy w er (showCamera (state w)) Ht) as Hsame.
    destruct w as [[sf pv iu er sc] sn lu um]. events_unfold.
    cbn [state sent live_urls urls_made selectedFiles previews isUploading
         ImageUploader.error showCamera] in *.
    destruct (negb (bool_decide (file_type file ∈ allowedTypes)));
      [apply Hsame|].
    destruct (file_size file >? MAX_FILE_SIZE); [apply Hsame|].
    destruct (Z.of_nat (length sf) >=? maxFiles); [apply Hsame|].
    exact Hadd.
  - exact Ht.
  - (* removing a preview *)
    destruct Ht as (Hlive & Hlen & Hnd & Hold).
    destruct w as [[sf pv iu er sc] sn lu um]. events_unfold.
    cbn [state sent live_urls urls_made selectedFiles previews] in *. subst lu.
    destruct (pv !! i) as [url|] eqn:Hi; cbn -[filter without_index].
    + unfold tidy. cbn -[filter without_index].
      split; [apply filter_ne_without_index; assumption|].
      pose proof (lookup_lt_Some _ _ _ Hi) as Hlt.
      split; [rewrite !without_index_length_lt by lia; lia|].
      split.
      * rewrite <- (filter_ne_without_index pv i url Hnd Hi).
        apply NoDup_filter, Hnd.
      * rewrite without_index_take_drop. apply Forall_app.
        split; [apply Forall_take | apply Forall_drop]; exact Hold.
    + apply lookup_ge_None in Hi.
      unfold tidy. cbn -[filter without_index].
      rewrite !without_index_out_of_range by lia. auto.
  - (* clearing the selection *)
    destruct Ht as (Hlive & Hlen & Hnd & Hold).
    destruct w as [[sf pv iu er sc] sn lu um]. events_unfold.
    cbn [state sent live_urls urls_made selectedFiles previews] in *. subst lu.
    destruct (revokeAll_world pv
                {| state := {| selectedFiles := sf; previews := pv;
                               isUploading := iu; error := er; showCamera := sc |};
                   sent := sn; live_urls := pv; urls_made := um |})
      as (Hr & Hs & Hsn & Hum & Hlv).
    destruct (revokeAll pv _) as [r w'] eqn:E. cbn [fst snd] in *. subst r.
    destruct w' as [s' sn' lu' um']. cbn [state sent live_urls urls_made] in *.
    subst s' sn' um' lu'. cbn. unfold tidy. cbn.
    rewrite filter_notin_self. repeat split; [apply NoDup_nil_2 | constructor].
  - (* opening the camera *)
    pose proof (fun er cam => state_only_tidy w er cam Ht) as Hsame.
    destruct w as [[sf pv iu er sc] sn lu um]. events_unfold.
    cbn [state sent live_urls urls_made selectedFiles previews isUploading
         ImageUploader.error showCamera] in *.
    destruct (Z.of_nat (length sf) >=? maxFiles); apply Hsame.
  - (* a photo from the camera *)
    pose proof (add_tidy w file false Ht) as Hadd.
    destruct Ht as (Hlive & Hlen & Hnd & Hold).
    destruct w as [[sf pv iu er sc] sn lu um]. events_unfold.
    cbn [state sent live_urls urls_made selectedFiles previews isUploading
         ImageUploader.error showCamera] in *.
    unfold tidy in *. cbn in *. exact Hadd.
  - (* closing the camera *)
    pose proof (state_only_tidy w (error (state w)) false Ht) as Hsame.
    destruct w as [[sf pv iu er sc] sn lu um]. exact Hsame.
Qed.

Lemma run_tidy (maxFiles : Z) (evs : list event) : forall w : World UploaderState,
  tidy w -> tidy (run maxFiles w evs).
Proof.
  induction evs as [|ev evs IH]; intros w Ht; [exact Ht|].
  simpl. apply IH, handle_tidy, Ht.
Qed.

(** What [handleUpload] does once [onUpload] has thrown, for an [onUpload]
    that leaves the uploader's own state alone. *)
Lemma handleUpload_thrown (onUpload : list File -> Js (World UploaderState) unit)
    (w w2 : World UploaderState) (e : Thrown) :
  selectedFiles (state w) <> [] ->
  onUpload (selectedFiles (state w)) (uploading w) = (Throw e, w2) ->
  state w2 = state (uploading w) ->
  handleUpload onUpload w
  = (Normal tt,
     {| state := {| selectedFiles := selectedFiles (state w);
                    previews := previews (state w);
                    isUploading := false;
                    error := Some (message_or e "Upload failed");
                    showCamera := showCamera (state w) |};
        sent := sent w2; live_urls := live_urls w2; urls_made := urls_made w2 |}).
Proof.
  intros Hne Hon Hst. destruct w as [[sf pv iu er sc] sn lu um].
  destruct w2 as [s2 sn2 lu2 um2]. unfold uploading in *.
  cbn [state sent live_urls urls_made selectedFiles previews showCamera] in *.
  subst s2. destruct sf as [|f sf]; [contradiction|].
  events_unfold. simpl. simpl in Hon. rewrite Hon. reflexivity.
Qed.

(** What it does once [onUpload] has returned: the selection is cleared
    and every preview captured by the handler is revoked. *)
Lemma handleUpload_returned (onUpload : list File -> Js (World UploaderState) unit)
    (w w2 : World UploaderState) :
  selectedFiles (state w) <> [] ->
  onUpload (selectedFiles (state w)) (uploading w) = (Normal tt, w2) ->
  state w2 = state (uploading w) ->
  handleUpload onUpload w
  = (Normal tt,
     {| state := {| selectedFiles := []; previews := [];
                    isUploading := false; error := None;
                    showCamera := showCamera (state w) |};
        sent := sent w2;
        live_urls := filter (fun v => v ∉ previews (state w)) (live_urls w2);
        urls_made := urls_made w2 |}).
Proof.
  intros Hne Hon Hst. destruct w as [[sf pv iu er sc] sn lu um].
  destruct w2 as [s2 sn2 lu2 um2]. unfold uploading in *.
  cbn [state sent live_urls urls_made selectedFiles previews showCamera] in *.
  subst s2. destruct sf as [|f sf]; [contradiction|].
  events_unfold. simpl. simpl in Hon. rewrite Hon.
  unfold clearAll, setSelectedFiles, setPreviews, ImageUploader.setError.
  js_unfold. simpl.
  destruct (revokeAll_world pv
              {| state := {| selectedFiles := f :: sf; previews := pv;
                             isUploading := true; error := None;
                             showCamera := sc |};
                 sent := sn2; live_urls := lu2; urls_made := um2 |})
    as (Hr & Hs & Hsn & Hum & Hlv).
  destruct (revokeAll pv _) as [r w3]. cbn [fst snd] in *. subst r.
  destruct w3 as [s3 sn3 lu3 um3]. cbn [state sent live_urls urls_made] in *.
  subst s3 sn3 um3 lu3. reflexivity.
Qed.

(** X16. What the file input accepts: of the files offered only the first
    is looked at; it is appended to the selection, with a fresh preview
    URL and the error cleared, exactly when its type is one of the four
    allowed image types, its size is at most 10 MB (10 MB itself
    included) and fewer than [maxFiles] files are selected; otherwise the
    selection and the previews are kept and an error is shown.  No list,
    or an empty one, changes nothing. *)
Theorem handleFileSelect_accepts_exactly (maxFiles : Z) (file : File)
    (rest : list File) (w : World UploaderState) :
  (acceptable file /\ Z.of_nat (length (selectedFiles (state w))) < maxFiles ->
   selectedFiles (state (handleFileSelect maxFiles (Some (file :: rest)) w).2)
   = selectedFiles (state w) ++ [file]
   /\ previews (state (handleFileSelect maxFiles (Some (file :: rest)) w).2)
      = previews (state w) ++ ["blob:" +:+ pretty (urls_made w)]
   /\ error (state (handleFileSelect maxFiles (Some (file :: rest)) w).2) = None)
  /\ (~ (acceptable file
         /\ Z.of_nat (length (selectedFiles (state w))) < maxFiles) ->
      selectedFiles (state (handleFileSelect maxFiles (Some (file :: rest)) w).2)
      = selectedFiles (state w)
      /\ previews (state (handleFileSelect maxFiles (Some (file :: rest)) w).2)
         = previews (state w)
      /\ is_Some (error (state (handleFileSelect maxFiles
                                  (Some (file :: rest)) w).2)))
  /\ handleFileSelect maxFiles (Some (file :: rest)) w
     = handleFileSelect maxFiles (Some [file]) w
  /\ handleFileSelect maxFiles None w = (Normal tt, w)
  /\ handleFileSelect maxFiles (Some []) w = (Normal tt, w).
Proof.
  split; [|split; [|repeat split]].
  - intros [[Hty Hsz] Hroom]. destruct w as [[sf pv iu er sc] sn lu um].
    events_unfold. cbn [state selectedFiles] in *.
    rewrite (bool_decide_eq_true_2 _ Hty). cbn [negb].
    destruct (Z.gtb_spec (file_size file) MAX_FILE_SIZE); [lia|].
    destruct (Z.geb_spec (Z.of_nat (length sf)) maxFiles); [lia|].
    simpl. auto.
  - intros Hno.
    assert (Href : refused maxFiles file w).
    { unfold refused, acceptable in *.
      destruct (decide (file_type file ∈ allowedTypes)); [|tauto].
      destruct (Z.gtb_spec (file_size file) MAX_FILE_SIZE); [right; left; lia|].
      right. right.
      destruct (Z.geb_spec (Z.of_nat (length (selectedFiles (state w)))) maxFiles);
        [lia|]. exfalso. apply Hno. split; [split; [assumption | lia] | lia]. }
    destruct (ImageUploaderFacts.handleFileSelect_refuses maxFiles file rest w Href)
      as (_ & [Herr Hsel] & Hpv & _).
    auto.
Qed.

Lemma handleFileSelect_accepts_exactly_witness :
  selectedFiles (state (handleFileSelect 15 (Some [MoreScenarios.ten_megabytes])
                          empty_world).2)
  = [MoreScenarios.ten_megabytes].
Proof.
  destruct (handleFileSelect_accepts_exactly 15 MoreScenarios.ten_megabytes []
              empty_world) as ((Hsel & _) & _).
  - split; [split|].
    + refine (bool_decide_unpack _ _). vm_compute. exact I.
    + vm_compute. discriminate.
    + vm_compute. reflexivity.
  - exact Hsel.
Defined.

(** X10. Removing a preview removes exactly the file and the preview at
    that index and revokes that preview's URL; an index past the end
    changes neither list; nothing is sent and the error shown is kept. *)
Theorem removeFile_removes_that_index (maxFiles : Z) (index : nat)
    (w : World UploaderState) :
  (handle maxFiles (Remove index) w).1 = Normal tt
  /\ selectedFiles (state (handle maxFiles (Remove index) w).2)
     = take index (selectedFiles (state w))
       ++ drop (S index) (selectedFiles (state w))
  /\ previews (state (handle maxFiles (Remove index) w).2)
     = take index (previews (state w)) ++ drop (S index) (previews (state w))
  /\ ((length (selectedFiles (state w)) <= index)%nat ->
      selectedFiles (state (handle maxFiles (Remove index) w).2)
      = selectedFiles (state w))
  /\ (forall url, previews (state w) !! index = Some url ->
                  url ∉ live_urls (handle maxFiles (Remove index) w).2)
  /\ sent (handle maxFiles (Remove index) w).2 = sent w
  /\ error (state (handle maxFiles (Remove index) w).2) = error (state w).
Proof.
  destruct w as [[sf pv iu er sc] sn lu um]. events_unfold.
  cbn [state sent live_urls urls_made selectedFiles previews].
  destruct (pv !! index) as [url|] eqn:Hi; cbn -[filter without_index];
    rewrite !without_index_take_drop;
    (split; [reflexivity|]); (split; [reflexivity|]); (split; [reflexivity|]);
    (split; [intros Hlen; rewrite take_ge, drop_ge by lia; apply app_nil_r|]);
    (split; [|split; reflexivity]).
  - intros url' [= <-] Hin. apply list_elem_of_filter in Hin as [Hin _].
    apply Hin. reflexivity.
  - intros url' [=].
Qed.

Lemma removeFile_removes_that_index_witness :
  selectedFiles (state (handle 15 (Remove 5) MoreScenarios.one_selected).2)
  = [Scenarios.one_jpeg].
Proof.
  destruct (removeFile_removes_that_index 15 5 MoreScenarios.one_selected)
    as (_ & _ & _ & Hout & _).
  rewrite Hout; [reflexivity|]. simpl. lia.
Defined.

(** X11. The previews and the object URLs of the uploader: starting from
    a selection whose previews are exactly the live object URLs, one per
    file and all distinct, this stays so after any sequence of events
    (files chosen, previews removed, selection cleared, camera opened,
    photos captured, camera closed); and clearing the selection then
    leaves no file, no preview and no live object URL. *)
Theorem uploader_urls_are_the_previews (maxFiles : Z) (w : World UploaderState)
    (evs : list event) :
  tidy w ->
  live_urls (run maxFiles w evs) = previews (state (run maxFiles w evs))
  /\ length (previews (state (run maxFiles w evs)))
     = length (selectedFiles (state (run maxFiles w evs)))
  /\ NoDup (previews (state (run maxFiles w evs)))
  /\ live_urls (handle maxFiles Clear (run maxFiles w evs)).2 = []
  /\ previews (state (handle maxFiles Clear (run maxFiles w evs)).2) = []
  /\ selectedFiles (state (handle maxFiles Clear (run maxFiles w evs)).2) = [].
Proof.
  intros Ht. pose proof (run_tidy maxFiles evs w Ht) as Hrun.
  pose proof (handle_tidy maxFiles Clear _ Hrun) as Hclear.
  destruct Hrun as (Hlive & Hlen & Hnd & _).
  split; [exact Hlive|]. split; [exact Hlen|]. split; [exact Hnd|].
  assert (Hempty : previews (state (handle maxFiles Clear (run maxFiles w evs)).2) = []
                   /\ selectedFiles
                        (state (handle maxFiles Clear (run maxFiles w evs)).2) = []).
  { generalize (run maxFiles w evs). intros [[sf pv iu er sc] sn lu um].
    events_unfold. cbn [state previews].
    destruct (revokeAll_world pv
                {| state := {| selectedFiles := sf; previews := pv;
                               isUploading := iu; error := er; showCamera := sc |};
                   sent := sn; live_urls := lu; urls_made := um |})
      as (Hr & _).
    destruct (revokeAll pv _) as [r w']. cbn [fst snd] in *. subst r.
    split; reflexivity. }
  destruct Hempty as [Hpv Hsf].
  destruct Hclear as (Hlive' & _). rewrite Hlive', Hpv. auto.
Qed.

Lemma uploader_urls_are_the_previews_witness :
  live_urls (run 15 empty_world MoreScenarios.busy_selection)
  = previews (state (run 15 empty_world MoreScenarios.busy_selection))
  /\ live_urls (handle 15 Clear (run 15 empty_world MoreScenarios.busy_selection)).2
     = [].
Proof.
  destruct (uploader_urls_are_the_previews 15 empty_world
              MoreScenarios.busy_selection) as (Hlive & _ & _ & Hclear & _).
  - repeat split; [apply NoDup_nil_2 | constructor].
  - split; [exact Hlive | exact Hclear].
Defined.

(** X12. The outcome of the process button, for an [onUpload] that does
    not touch the uploader's own state: when [onUpload] returns, the
    selection and the previews are emptied, every preview URL is revoked
    and no error is shown; when [onUpload] throws, [handleUpload] still
    completes, keeps the selection and its previews, and shows the
    message of the error ("Upload failed" for a thrown value that is not
    an [Error]); in both cases uploading is off again. *)
Theorem handleUpload_clears_or_reports
    (onUpload : list File -> Js (World UploaderState) unit)
    (w w2 : World UploaderState) (r : Res unit) :
  selectedFiles (state w) <> [] ->
  onUpload (selectedFiles (state w)) (uploading w) = (r, w2) ->
  state w2 = state (uploading w) ->
  (handleUpload onUpload w).1 = Normal tt
  /\ isUploading (state (handleUpload onUpload w).2) = false
  /\ sent (handleUpload onUpload w).2 = sent w2
  /\ match r with
     | Normal _ =>
         selectedFiles (state (handleUpload onUpload w).2) = []
         /\ previews (state (handleUpload onUpload w).2) = []
         /\ error (state (handleUpload onUpload w).2) = None
         /\ forall url, url ∈ previews (state w) ->
                        url ∉ live_urls (handleUpload onUpload w).2
     | Throw e =>
         selectedFiles (state (handleUpload onUpload w).2)
         = selectedFiles (state w)
         /\ previews (state (handleUpload onUpload w).2) = previews (state w)
         /\ error (state (handleUpload onUpload w).2)
            = Some (message_or e "Upload failed")
         /\ live_urls (handleUpload onUpload w).2 = live_urls w2
     end.
Proof.
  intros Hne Hon Hst. destruct r as [[]|e].
  - rewrite (handleUpload_returned onUpload w w2 Hne Hon Hst).
    cbn [fst snd state sent live_urls selectedFiles previews isUploading
         ImageUploader.error].
    repeat split. intros url Hin Hlive.
    apply list_elem_of_filter in Hlive as [Hnin _]. exact (Hnin Hin).
  - rewrite (handleUpload_thrown onUpload w w2 e Hne Hon Hst).
    cbn [fst snd state sent live_urls selectedFiles previews isUploading
         ImageUploader.error].
    repeat split.
Qed.

Lemma handleUpload_clears_or_reports_witness :
  selectedFiles (state (handleUpload MoreScenarios.accepting_onUpload
                          MoreScenarios.one_selected).2) = []
  /\ isUploading (state (handleUpload MoreScenarios.accepting_onUpload
                           MoreScenarios.one_selected).2) = false.
Proof.
  destruct (handleUpload_clears_or_reports MoreScenarios.accepting_onUpload
              MoreScenarios.one_selected (uploading MoreScenarios.one_selected)
              (Normal tt)) as (_ & Hup & _ & Hsel & _).
  - discriminate.
  - reflexivity.
  - reflexivity.
  - split; [exact Hsel | exact Hup].
Defined.

Lemma onUpload_of_Home_sends (srv : Server) (home : Home.HomeState)
    (files : list File) (w : World UploaderState) :
  state (onUpload_of_Home srv home files w).2 = state w
  /\ exists rest, sent (onUpload_of_Home srv home files w).2
                  = sent w ++ UploadImages files :: rest.
Proof.
  destruct w as [st sn lu um]. destruct home as [[sid pg ld er'] cp].
  unfold onUpload_of_Home, Compose.elsewhere.
  cbn [state sent live_urls urls_made].
  unfold Home.handleUpload, Home.with_session, Home.setCurrentPage, Compose.zoom,
    UseSession.upload, uploadImages, getPages, UseSession.setIsLoading,
    UseSession.setError, UseSession.setSessionId, UseSession.setPages.
  js_unfold. simpl.
  destruct (upload_images srv sn files) as [e|[d|e]|[r|e]]; simpl;
    try (split; [reflexivity | exists []; reflexivity]).
  destruct (get_pages srv (sn ++ [UploadImages files]) (session_id r))
    as [e|[d|e]|[r'|e]]; simpl;
    (split; [reflexivity|]); exists [GetPages (session_id r)];
    rewrite <- app_assoc; reflexivity.
Qed.

Lemma handleUpload_of_Home_sends (srv : Server) (home : Home.HomeState)
    (w : World UploaderState) :
  selectedFiles (state w) <> [] ->
  exists rest,
    sent (handleUpload (onUpload_of_Home srv home) w).2
    = sent w ++ UploadImages (selectedFiles (state w)) :: rest.
Proof.
  intros Hne.
  destruct (onUpload_of_Home_sends srv home (selectedFiles (state w)) (uploading w))
    as (Hstate & rest & Hrest).
  destruct (onUpload_of_Home srv home (selectedFiles (state w)) (uploading w))
    as [[[]|e] w2] eqn:Hon; cbn [snd] in Hstate, Hrest.
  - rewrite (handleUpload_returned _ w w2 Hne Hon Hstate).
    cbn [snd sent]. exists rest. exact Hrest.
  - rewrite (handleUpload_thrown _ w w2 e Hne Hon Hstate).
    cbn [snd sent]. exists rest. exact Hrest.
Qed.

(** C5. The checks of the file input are missing on the camera path.
    [handleFileSelect] refuses a file of a disallowed type, a file over
    10 MB and any file once [maxFiles] files are selected, with an error
    message and without adding it.  [handleCameraCapture] appends the
    file it is given whatever its size and however many files are
    selected, and reports nothing.  So with fourteen files selected, two
    photos from the camera, one of them of 20 MB, make a selection of
    sixteen files with no error shown, and the process button sends all
    sixteen in one upload request. *)
Theorem camera_capture_is_not_validated (srv : Server) (home : Home.HomeState) :
  (forall maxFiles file rest (w : World UploaderState),
     refused maxFiles file w ->
     rejected_with_error w (handleFileSelect maxFiles (Some (file :: rest)) w).2)
  /\ (forall file (w : World UploaderState),
        (handleCameraCapture file w).1 = Normal tt
        /\ selectedFiles (state (handleCameraCapture file w).2)
           = selectedFiles (state w) ++ [file]
        /\ error (state (handleCameraCapture file w).2) = error (state w))
  /\ length (selectedFiles (state MoreScenarios.overfull)) = 16%nat
  /\ MoreScenarios.large_photo ∈ selectedFiles (state MoreScenarios.overfull)
  /\ refused 15 MoreScenarios.large_photo ImageUploader.empty_world
  /\ error (state MoreScenarios.overfull) = None
  /\ exists rest,
       sent (handleUpload (onUpload_of_Home srv home) MoreScenarios.overfull).2
       = UploadImages (selectedFiles (state MoreScenarios.overfull)) :: rest.
Proof.
  split; [|split; [|split; [|split; [|split; [|split]]]]].
  - intros maxFiles file rest w Href.
    apply (ImageUploaderFacts.handleFileSelect_refuses maxFiles file rest w Href).
  - intros file [[sf pv iu er sc] sn lu um]. events_unfold. simpl. auto.
  - vm_compute. reflexivity.
  - apply list_elem_of_lookup. exists 15%nat. vm_compute. reflexivity.
  - right. left. vm_compute. reflexivity.
  - vm_compute. reflexivity.
  - destruct (handleUpload_of_Home_sends srv home MoreScenarios.overfull)
      as [rest Hrest]; [vm_compute; discriminate|].
    exists rest. rewrite Hrest.
    replace (sent MoreScenarios.overfull) with (@nil Request)
      by (vm_compute; reflexivity).
    reflexivity.
Qed.

(** X13. The process button against a server that refuses the upload:
    with files selected and [onUpload] being [handleUpload] of [Home],
    when the upload request is answered with a non-ok status the uploader
    completes and shows the message of what [uploadImages] threw: the
    [detail] of a JSON object body (or "Upload failed" when it is missing
    or empty), the message of the error raised while reading any other
    body (or "Upload failed" when that is not an [Error]).  It keeps the
    selected files and their previews for another try, is no longer
    uploading, and has sent that single request. *)
Theorem refused_upload_keeps_selection (srv : Server) (home : Home.HomeState)
    (w : World UploaderState) (body : Body (option string)) :
  selectedFiles (state w) <> [] ->
  upload_images srv (sent w) (selectedFiles (state w)) = NotOk body ->
  (handleUpload (onUpload_of_Home srv home) w).1 = Normal tt
  /\ error (state (handleUpload (onUpload_of_Home srv home) w).2)
     = Some (message_or (Home.refusal body) "Upload failed")
  /\ (forall detail, body = Read detail ->
        error (state (handleUpload (onUpload_of_Home srv home) w).2)
        = Some (js_or detail "Upload failed"))
  /\ (forall e, body = Unreadable e ->
        error (state (handleUpload (onUpload_of_Home srv home) w).2)
        = Some (message_or e "Upload failed"))
  /\ selectedFiles (state (handleUpload (onUpload_of_Home srv home) w).2)
     = selectedFiles (state w)
  /\ previews (state (handleUpload (onUpload_of_Home srv home) w).2)
     = previews (state w)
  /\ isUploading (state (handleUpload (onUpload_of_Home srv home) w).2) = false
  /\ sent (handleUpload (onUpload_of_Home srv home) w).2
     = sent w ++ [UploadImages (selectedFiles (state w))]
  /\ live_urls (handleUpload (onUpload_of_Home srv home) w).2 = live_urls w.
Proof.
  intros Hne Hup.
  assert (Hon : onUpload_of_Home srv home (selectedFiles (state w)) (uploading w)
                = (Throw (Home.refusal body),
                   {| state := state (uploading w);
                      sent := sent w ++ [UploadImages (selectedFiles (state w))];
                      live_urls := live_urls w; urls_made := urls_made w |})).
  { destruct w as [[sf pv iu er sc] sn lu um]. destruct home as [[sid pg ld er'] cp].
    unfold onUpload_of_Home, Compose.elsewhere, uploading.
    cbn [state sent live_urls urls_made selectedFiles] in *.
    unfold Home.handleUpload, Home.with_session, Home.setCurrentPage, Compose.zoom,
      UseSession.upload, uploadImages, getPages, UseSession.setIsLoading,
      UseSession.setError, UseSession.setSessionId, UseSession.setPages.
    js_unfold. simpl. rewrite Hup. destruct body; reflexivity. }
  rewrite (handleUpload_thrown _ w _ _ Hne Hon eq_refl).
  cbn [fst snd state sent live_urls selectedFiles previews isUploading
       ImageUploader.error].
  repeat split; intros ? Heq; rewrite Heq; reflexivity.
Qed.

Lemma refused_upload_keeps_selection_witness :
  error (state (handleUpload (onUpload_of_Home MoreScenarios.strict_server
                                (state MoreScenarios.fresh_home))
                  MoreScenarios.one_selected).2)
  = Some "No files provided"
  /\ selectedFiles
       (state (handleUpload (onUpload_of_Home MoreScenarios.failing_proxy
                               (state MoreScenarios.fresh_home))
                 MoreScenarios.one_selected).2)
     = [Scenarios.one_jpeg].
Proof.
  split.
  - destruct (refused_upload_keeps_selection MoreScenarios.strict_server
                (state MoreScenarios.fresh_home) MoreScenarios.one_selected
                (Read (Some "No files provided"))) as (_ & Herr & _);
      [discriminate | reflexivity | exact Herr].
  - destruct (refused_upload_keeps_selection MoreScenarios.failing_proxy
                (state MoreScenarios.fresh_home) MoreScenarios.one_selected
                (Unreadable (ErrorObj "Unexpected token < in JSON at position 0")))
      as (_ & _ & _ & _ & Hsel & _);
      [discriminate | reflexivity | exact Hsel].
Defined.

End UploaderEventsFacts.

Module PreferencesFacts.
Import ReaderPreferences Preferences.

Lemma step_keeps s a :
  in_range (fontSize s) ->
  in_range (fontSize (step s a)) /\ isLoaded (step s a) = isLoaded s.
Proof.
  intros Hr. destruct a; simpl; split; try reflexivity; try exact Hr.
  - apply ReaderPreferencesFacts.increase_in_range, Hr.
  - apply ReaderPreferencesFacts.decrease_in_range, Hr.
Qed.

Lemma run_keeps acts : forall s,
  in_range (fontSize s) ->
  in_range (fontSize (run s acts)) /\ isLoaded (run s acts) = isLoaded s.
Proof.
  induction acts as [|a acts IH]; intros s Hr; [auto|].
  simpl. destruct (step_keeps s a Hr) as [Hr' Hl].
  destruct (IH (step s a) Hr') as [Hr'' Hl'']. split; [exact Hr''|congruence].
Qed.

Lemma mount_keeps item s :
  in_range (fontSize s) ->
  in_range (fontSize (mount item s)) /\ isLoaded (mount item s) = true.
Proof.
  intros Hr. destruct item as [| |prefs]; simpl; split; try reflexivity;
    try exact Hr.
  apply ReaderPreferencesFacts.load_in_range, Hr.
Qed.

Lemma loadFontSize_accepts f current :
  in_range f -> loadFontSize (Some f) current = f.
Proof.
  unfold in_range, loadFontSize, MIN_FONT_SIZE, MAX_FONT_SIZE. intros Hr.
  destruct (Z.eqb_spec f 0); [lia|].
  destruct (Z.geb_spec f 14); [|lia].
  destruct (Z.leb_spec f 28); [|lia]. reflexivity.
Qed.

Lemma loadFontSize_rejects f current :
  ~ in_range f -> loadFontSize (Some f) current = current.
Proof.
  unfold in_range, loadFontSize, MIN_FONT_SIZE, MAX_FONT_SIZE. intros Hr.
  destruct (Z.eqb_spec f 0); [reflexivity|].
  destruct (Z.geb_spec f 14); [|reflexivity].
  destruct (Z.leb_spec f 28); [lia | reflexivity].
Qed.

(** X14. Reader preferences survive a reload: whatever was found in
    storage at mount and whatever font and theme changes followed, the
    hook writes its font size and theme, and mounting again on what it
    wrote restores exactly that font size (which is within [14, 28]) and
    that theme.  Before the mount effect has run nothing is written, and
    a stored font size outside [14, 28] is ignored at mount. *)
Theorem preferences_survive_reload (found : Item) (acts : list action) :
  (exists written,
      save (run (mount found initial) acts) = Some written
      /\ fontSize (mount written initial)
         = fontSize (run (mount found initial) acts)
      /\ theme (mount written initial) = theme (run (mount found initial) acts))
  /\ 14 <= fontSize (run (mount found initial) acts) <= 28
  /\ save (run initial acts) = None
  /\ (forall f t s, ~ 14 <= f <= 28 ->
        fontSize (mount (Object {| stored_fontSize := Some f;
                                   stored_theme := t |}) s) = fontSize s).
Proof.
  assert (Hinit : in_range (fontSize initial)).
  { unfold in_range, initial, DEFAULT_FONT_SIZE, MIN_FONT_SIZE, MAX_FONT_SIZE.
    simpl. lia. }
  destruct (mount_keeps found initial Hinit) as [Hr Hl].
  destruct (run_keeps acts (mount found initial) Hr) as [Hr' Hl'].
  rewrite Hl in Hl'.
  split; [|split; [exact Hr'|split]].
  - unfold save. rewrite Hl'. eexists. split; [reflexivity|].
    cbn [mount stored_fontSize stored_theme fontSize theme]. split.
    + apply loadFontSize_accepts, Hr'.
    + destruct (theme (run (mount found initial) acts)); reflexivity.
  - destruct (run_keeps acts initial Hinit) as [_ Hoff].
    unfold save. rewrite Hoff. reflexivity.
  - intros f t s Hout. cbn [mount stored_fontSize fontSize].
    apply loadFontSize_rejects. exact Hout.
Qed.

Lemma preferences_survive_reload_witness :
  fontSize (mount (Object {| stored_fontSize := Some 40; stored_theme := None |})
                  initial) = 18.
Proof.
  destruct (preferences_survive_reload Absent [IncreaseFont; ToggleTheme])
    as (_ & _ & _ & Hignored).
  rewrite Hignored; [reflexivity | lia].
Defined.

End PreferencesFacts.

Module ControlsFacts.
Import ReaderPreferences Navigation Controls.

(** X15. The header buttons of the reader are disabled exactly when
    pressing them would change nothing: previous and next for every
    current page and page count, and the two font buttons for every font
    size within [14, 28]. *)
Theorem disabled_iff_no_effect (page total fontSize : Z) :
  14 <= fontSize <= 28 ->
  (previousDisabled page = true
   <-> goToPrevious {| currentPage := page; pagesLength := total |} page = page)
  /\ (nextDisabled page total = true
      <-> goToNext {| currentPage := page; pagesLength := total |} page = page)
  /\ (decreaseDisabled fontSize = true <-> decreaseFontSize fontSize = fontSize)
  /\ (increaseDisabled fontSize = true <-> increaseFontSize fontSize = fontSize).
Proof.
  intros Hr.
  unfold previousDisabled, nextDisabled, decreaseDisabled, increaseDisabled,
    goToPrevious, goToNext, canDecrease, canIncrease, decreaseFontSize,
    increaseFontSize, MIN_FONT_SIZE, MAX_FONT_SIZE, FONT_SIZE_STEP.
  cbn [currentPage pagesLength].
  repeat split.
  - destruct (Z.gtb_spec page 1); lia.
  - destruct (Z.gtb_spec page 1); lia.
  - destruct (Z.ltb_spec page total); lia.
  - destruct (Z.ltb_spec page total); lia.
  - destruct (Z.gtb_spec fontSize 14); simpl; [discriminate | lia].
  - destruct (Z.gtb_spec fontSize 14); simpl; [lia | reflexivity].
  - destruct (Z.ltb_spec fontSize 28); simpl; [discriminate | lia].
  - destruct (Z.ltb_spec fontSize 28); simpl; [lia | reflexivity].
Qed.

Lemma disabled_iff_no_effect_witness :
  nextDisabled 3 3 = true
  <-> goToNext {| currentPage := 3; pagesLength := 3 |} 3 = 3.
Proof.
  destruct (disabled_iff_no_effect 3 3 28) as (_ & Hnext & _).
  - lia.
  - exact Hnext.
Defined.

End ControlsFacts.
